(** * Icon resolution pipeline of Applications-Overview-XFCE.py

    A shallow embedding of [setupStuff/Applications-Overview-XFCE.py]:
    the theme resolver, the icon searcher, the window-name normaliser,
    the desktop-entry locator and reader, the candidate builder and the
    resolver that chains them.

    Python values are modelled as follows.
    - [str] is a list of Unicode code points ([N]); the em dash and the
      en dash of the normaliser are the code points 8212 and 8211.
    - [None]-or-string arguments are [option str]; truthiness is [truthy].
    - The operating system (file system, environment, child processes) is
      a record of answers [OS]; the program only ever queries it.
    - Effects are threaded through a state-and-exception monad [M] over a
      [World] that holds the operating system and the debug output.
    - The standard output is encoded in UTF-8; its error handler is part
      of the operating system. [print] fails with UnicodeEncodeError when
      a line holds a surrogate code point the handler does not let
      through (a file name that is not UTF-8 is handed to the program
      with such code points). Writing the encoded bytes is taken to
      succeed.
    - [str.lower] is a parameter [lower] of the functions that call it;
      [ascii_lower] is its behaviour on ASCII text, used in the examples. *)

From Stdlib Require Import NArith Ascii String.
From stdpp Require Import base option list gmap.

Local Open Scope N_scope.

(** ** Python strings *)

Abbreviation char := N (only parsing).
Abbreviation str := (list N) (only parsing).

(** An ASCII literal of the source as a list of code points. *)
Definition py (s : string) : str := N_of_ascii <$> list_ascii_of_string s.

(** [str.isspace] on one code point (the interpreter's whitespace table). *)
Definition isspace (c : char) : bool :=
  ((9 <=? c) && (c <=? 13)) || ((28 <=? c) && (c <=? 32))
  || (c =? 133) || (c =? 160) || (c =? 5760)
  || ((8192 <=? c) && (c <=? 8202))
  || (c =? 8232) || (c =? 8233) || (c =? 8239) || (c =? 8287)
  || (c =? 12288).

Fixpoint lstrip (s : str) : str :=
  match s with
  | [] => []
  | c :: s' => if isspace c then lstrip s' else s
  end.

Definition rstrip (s : str) : str := reverse (lstrip (reverse s)).

(** [s.strip()] *)
Definition strip (s : str) : str := lstrip (rstrip s).

(** [s.split()]: the maximal runs of non-whitespace characters. *)
Fixpoint split (s : str) : list str :=
  match s with
  | [] => []
  | c :: s' =>
      if isspace c then split s'
      else match s' with
           | [] => [[c]]
           | c' :: _ =>
               if isspace c' then [c] :: split s'
               else match split s' with
                    | t :: ts => (c :: t) :: ts
                    | [] => [[c]]
                    end
           end
  end.

(** [sep.join(parts)] *)
Fixpoint join (sep : str) (parts : list str) : str :=
  match parts with
  | [] => []
  | [p] => p
  | p :: ps => p ++ sep ++ join sep ps
  end.

Fixpoint startswith (s pre : str) : bool :=
  match pre, s with
  | [], _ => true
  | p :: pre', c :: s' => (c =? p) && startswith s' pre'
  | _ :: _, [] => false
  end.

Definition endswith (s suf : str) : bool :=
  startswith (reverse s) (reverse suf).

(** [needle in hay] for two strings: substring containment. *)
Fixpoint contains (needle hay : str) : bool :=
  startswith hay needle ||
  match hay with
  | [] => false
  | _ :: hay' => contains needle hay'
  end.

(** [c in s] for a one-character string [c]. *)
Definition has_char (c : char) (s : str) : bool := contains [c] s.

(** [s.rsplit(c, 1)[-1]] and [s.split(c)[-1]]: what follows the last
    occurrence of [c], the whole string when [c] does not occur. *)
Fixpoint after_last (c : char) (s : str) : str :=
  match s with
  | [] => []
  | x :: s' =>
      if has_char c s' then after_last c s'
      else if x =? c then s' else s
  end.

(** [s.split(c, 1)]: one piece when [c] does not occur, else two. *)
Fixpoint split1 (c : char) (s : str) : list str :=
  match s with
  | [] => [[]]
  | x :: s' =>
      if x =? c then [[]; s']
      else match split1 c s' with
           | t :: ts => (x :: t) :: ts
           | [] => [[x]]
           end
  end.

(** [s.split(c)] with an explicit separator: empty pieces are kept. *)
Fixpoint split_on (c : char) (s : str) : list str :=
  match s with
  | [] => [[]]
  | x :: s' =>
      if x =? c then [] :: split_on c s'
      else match split_on c s' with
           | t :: ts => (x :: t) :: ts
           | [] => [[x]]
           end
  end.

(** [s.replace(' ', '')] *)
Definition remove_spaces (s : str) : str := filter (λ c, c ≠ 32) s.

(** [str.lower] on ASCII text. *)
Definition ascii_lower (s : str) : str :=
  (λ c, if (65 <=? c) && (c <=? 90) then c + 32 else c) <$> s.

(** [posixpath.join(a, *p)] *)
Definition path_join (a : str) (p : list str) : str :=
  foldl (λ path b,
           if startswith b (py "/") then b
           else if bool_decide (path = []) || endswith path (py "/")
                then path ++ b
                else path ++ py "/" ++ b) a p.

(** [bytes.decode()]: strict UTF-8; [None] stands for UnicodeDecodeError. *)
Definition is_cont (b : N) : bool := (128 <=? b) && (b <=? 191).

Fixpoint utf8_decode (bs : list N) : option str :=
  match bs with
  | [] => Some []
  | b0 :: r0 =>
      if b0 <? 128 then cons b0 <$> utf8_decode r0
      else match r0 with
      | [] => None
      | b1 :: r1 =>
          if (194 <=? b0) && (b0 <=? 223) then
            if is_cont b1
            then cons ((b0 - 192) * 64 + (b1 - 128)) <$> utf8_decode r1
            else None
          else match r1 with
          | [] => None
          | b2 :: r2 =>
              if (224 <=? b0) && (b0 <=? 239) then
                if is_cont b1 && is_cont b2
                   && negb ((b0 =? 224) && (b1 <? 160))
                   && negb ((b0 =? 237) && (159 <? b1))
                then cons ((b0 - 224) * 4096 + (b1 - 128) * 64 + (b2 - 128))
                       <$> utf8_decode r2
                else None
              else match r2 with
              | [] => None
              | b3 :: r3 =>
                  if (240 <=? b0) && (b0 <=? 244)
                     && is_cont b1 && is_cont b2 && is_cont b3
                     && negb ((b0 =? 240) && (b1 <? 144))
                     && negb ((b0 =? 244) && (143 <? b1))
                  then cons ((b0 - 240) * 262144 + (b1 - 128) * 4096
                             + (b2 - 128) * 64 + (b3 - 128))
                         <$> utf8_decode r3
                  else None
              end
          end
      end
  end.

(** Truthiness of a value that is [None] or a string. *)
Definition truthy (v : option str) : bool :=
  match v with
  | Some (_ :: _) => true
  | _ => false
  end.

(** ** Exceptions, the operating system and the world *)

Inductive exn :=
| CalledProcessError (returncode : Z)
| FileNotFoundError
| PermissionError
| NotADirectoryError
| UnicodeDecodeError
| UnicodeEncodeError
| IndexError
| OSError.

Inductive PyResult (A : Type) :=
| Ok (a : A)
| Raise (e : exn).
Arguments Ok {A} a.
Arguments Raise {A} e.

(** What starting a child process and waiting for it gives. *)
Inductive proc_outcome :=
| NotStarted (e : exn)
| Exited (returncode : Z) (output : list N).

(** What [open(path, 'r', errors='ignore')] and reading it line by line
    gives: the open fails, or lines are delivered, possibly followed by a
    read error. *)
Inductive file_open :=
| OpenError (e : exn)
| Opened (lines : list str) (read_error : option exn).

(** The error handler of [sys.stdout]: 'strict' (the default),
    'surrogateescape', or one of those that never fail ('replace',
    'ignore', 'backslashreplace', 'xmlcharrefreplace', 'namereplace',
    'surrogatepass'). *)
Inductive error_handler :=
| Strict
| SurrogateEscape
| Replacing.

Record OS := {
  os_path_exists : str → bool;
  os_listdir : str → PyResult (list str);
  (** [os.walk(top)]: the (dirpath, dirnames, filenames) triples in the
      order the walk yields them; errors are ignored by [os.walk]. *)
  os_walk : str → list (str * list str * list str);
  os_open : str → file_open;
  os_environ_get : str → option str;
  os_path_expanduser : str → str;
  os_run : list str → proc_outcome;
  os_stdout_errors : error_handler
}.

(** The debug lines the program prints, before rendering to text. *)
Inductive debug_line :=
| DbgTheme (theme : str)
| DbgThemeFallback
| DbgSearchPaths (paths : list str)
| DbgRawName (original name : str)
| DbgFoundDash (sep : char) (segment last_word : str)
| DbgNoDash
| DbgDesktopIcon (desktop_file icon_name : str)
| DbgReadError (desktop_file : str) (e : exn)
| DbgCandidates (all_cands : list str)
| DbgTrying (cand : str) (found : option str).

Record World := {
  w_os : OS;
  w_stdout : list debug_line
}.

(** The code points UTF-8 does not encode: the surrogates. *)
Definition is_surrogate (c : char) : bool := (55296 <=? c) && (c <=? 57343).

(** Whether the standard output writes the code point: every code point
    but a surrogate is encoded; 'surrogateescape' turns the surrogates
    U+DC80 to U+DCFF back into the bytes they stand for. *)
Definition writes (errors : error_handler) (c : char) : bool :=
  negb (is_surrogate c) ||
  match errors with
  | Strict => false
  | SurrogateEscape => (56448 <=? c) && (c <=? 56575)
  | Replacing => true
  end.

(** Whether the standard output of the machine can write the text. *)
Definition encodable (os : OS) (s : str) : bool :=
  forallb (writes (os_stdout_errors os)) s.

(** The text of a debug line that is written as it is: what the f-string
    interpolates with [str()]. The fixed text of the messages is ASCII; a
    list is interpolated through [repr()], which escapes the surrogates,
    and so is the file name in the message of an exception. *)
Definition interpolated (d : debug_line) : str :=
  match d with
  | DbgTheme theme => theme
  | DbgThemeFallback => []
  | DbgSearchPaths _ => []
  | DbgRawName original name => original ++ name
  | DbgFoundDash sep segment last_word => sep :: segment ++ last_word
  | DbgNoDash => []
  | DbgDesktopIcon desktop_file icon_name => desktop_file ++ icon_name
  | DbgReadError desktop_file _ => desktop_file
  | DbgCandidates _ => []
  | DbgTrying cand found =>
      cand ++ (if truthy found then default [] found else [])
  end.

(** ** The monad of the program *)

Definition M (A : Type) : Type := World → PyResult A * World.

Global Instance M_ret : MRet M := λ A a w, (Ok a, w).

Global Instance M_bind : MBind M := λ A B f m w,
  match m w with
  | (Ok a, w') => f a w'
  | (Raise e, w') => (Raise e, w')
  end.

Definition result_of {A} (m : M A) (w : World) : PyResult A := (m w).1.
Definition world_after {A} (m : M A) (w : World) : World := (m w).2.

Definition raise {A} (e : exn) : M A := λ w, (Raise e, w).

Definition lift {A} (r : PyResult A) : M A := λ w, (r, w).

Definition ask {A} (q : OS → A) : M A := λ w, (Ok (q (w_os w)), w).

(** [print(f"...")]: the line is encoded as a whole before anything is
    written, so a line that cannot be encoded leaves the output as it
    was. *)
Definition print (d : debug_line) : M unit := λ w,
  if encodable (w_os w) (interpolated d)
  then (Ok (), {| w_os := w_os w; w_stdout := w_stdout w ++ [d] |})
  else (Raise UnicodeEncodeError, w).

(** [try: body except <catches> as e: handler e] *)
Definition try_except {A} (body : M A) (catches : exn → bool)
    (handler : exn → M A) : M A := λ w,
  match body w with
  | (Ok a, w') => (Ok a, w')
  | (Raise e, w') => if catches e then handler e w' else (Raise e, w')
  end.

(** [for x in xs: body], where the body may [return v] from the enclosing
    function ([Some v]) or go on to the next element ([None]). *)
Fixpoint for_return {X R} (xs : list X) (body : X → M (option R))
    : M (option R) :=
  match xs with
  | [] => mret None
  | x :: xs' =>
      r ← body x;
      match r with
      | Some v => mret (Some v)
      | None => for_return xs' body
      end
  end.

(** [for x in xs: body], where the body updates the local variables [s]. *)
Fixpoint for_each {X S} (xs : list X) (body : X → S → M S) (s : S) : M S :=
  match xs with
  | [] => mret s
  | x :: xs' => s' ← body x s; for_each xs' body s'
  end.

(** *** Operating-system calls *)

Definition path_exists (p : str) : M bool := ask (λ os, os_path_exists os p).

Definition listdir (p : str) : M (list str) :=
  r ← ask (λ os, os_listdir os p); lift r.

Definition walk (top : str) : M (list (str * list str * list str)) :=
  ask (λ os, os_walk os top).

Definition environ_get (key default : str) : M str :=
  ask (λ os, from_option id default (os_environ_get os key)).

Definition expanduser (p : str) : M str := ask (λ os, os_path_expanduser os p).

(** [subprocess.check_output(cmd)] *)
Definition check_output (cmd : list str) : M (list N) :=
  r ← ask (λ os, os_run os cmd);
  match r with
  | NotStarted e => raise e
  | Exited 0%Z out => mret out
  | Exited rc _ => raise (CalledProcessError rc)
  end.

Definition decode (bs : list N) : M str :=
  match utf8_decode bs with
  | Some s => mret s
  | None => raise UnicodeDecodeError
  end.

(** [with open(path, 'r', errors='ignore') as f: for line in f: body] *)
Definition for_line_of {R} (path : str) (body : str → M (option R))
    : M (option R) :=
  f ← ask (λ os, os_open os path);
  match f with
  | OpenError e => raise e
  | Opened lines read_error =>
      r ← for_return lines body;
      match r, read_error with
      | Some v, _ => mret (Some v)
      | None, Some e => raise e
      | None, None => mret None
      end
  end.

(** [l[i]] *)
Definition getitem {A} (l : list A) (i : nat) : M A :=
  match l !! i with
  | Some x => mret x
  | None => raise IndexError
  end.

(** ** The program *)

Definition ICON_EXTS : list str :=
  [py "png"; py "svg"; py "xpm"; py "jpg"; py "jpeg"; py "bmp"; py "gif"].

(** The module constant is computed once when the module is loaded; the
    operating system is only queried, so computing it where it is used
    gives the same list. *)
Definition DESKTOP_DIRS : M (list str) :=
  home_apps ← expanduser (py "~/.local/share/applications");
  mret [py "/usr/share/applications";
        home_apps;
        py "/var/lib/flatpak/exports/share/applications";
        py "/var/lib/snapd/desktop/applications"].

Definition is_CalledProcessError (e : exn) : bool :=
  match e with
  | CalledProcessError _ => true
  | _ => false
  end.

Definition xfconf_query : list str :=
  [py "xfconf-query"; py "-c"; py "xsettings"; py "-p";
   py "/Net/IconThemeName"].

Definition get_current_icon_theme : M str :=
  try_except
    (out ← check_output xfconf_query;
     text ← decode out;
     let theme := strip text in
     print (DbgTheme theme);;
     mret theme)
    is_CalledProcessError
    (λ _,
     print DbgThemeFallback;;
     mret (py "hicolor")).

Definition get_icon_search_paths (theme : str) : M (list str) :=
  let paths := [] in
  dirs ← environ_get (py "XDG_DATA_DIRS") (py "/usr/local/share:/usr/share");
  let xdg_data_dirs := split_on 58 dirs in
  home_share ← expanduser (py "~/.local/share");
  xdg_data_home ← environ_get (py "XDG_DATA_HOME") home_share;
  paths ← for_each (xdg_data_home :: xdg_data_dirs) (λ base paths,
    let theme_dir := path_join base [py "icons"; theme] in
    there ← path_exists theme_dir;
    if (there : bool) then mret (paths ++ [theme_dir]) else mret paths)
    paths;
  paths ← for_each (xdg_data_home :: xdg_data_dirs) (λ base paths,
    let hicolor_dir := path_join base [py "icons"; py "hicolor"] in
    there ← path_exists hicolor_dir;
    if (there : bool) then mret (paths ++ [hicolor_dir]) else mret paths)
    paths;
  there ← path_exists (py "/usr/share/pixmaps");
  let paths :=
    if (there : bool) then paths ++ [py "/usr/share/pixmaps"] else paths in
  print (DbgSearchPaths paths);;
  mret paths.

Definition search_icon (icon_name : str) (paths : list str) : M (option str) :=
  for_return paths (λ base,
    triples ← walk base;
    for_return triples (λ '(root, _, files),
      for_return ICON_EXTS (λ ext,
        let candidate := icon_name ++ py "." ++ ext in
        if bool_decide (candidate ∈ files)
        then mret (Some (path_join root [candidate]))
        else mret None))).

(** The separators of the normaliser: em dash, en dash, hyphen. *)
Definition DASHES : list char := [8212; 8211; 45].

Definition extract_last_word_after_dash (win_name : option str) : M str :=
  let original :=
    strip (if truthy win_name then default [] win_name else []) in
  let name := join (py " ") (split original) in
  print (DbgRawName original name);;
  r ← for_return DASHES (λ sep,
    if has_char sep name then
      let segment := strip (after_last sep name) in
      let words := split segment in
      let last_word := default segment (last words) in
      print (DbgFoundDash sep segment last_word);;
      mret (Some last_word)
    else mret None);
  match r with
  | Some last_word => mret last_word
  | None =>
      print DbgNoDash;;
      mret name
  end.

Definition read_icon_from_desktop (desktop_file : option str)
    : M (option str) :=
  match desktop_file with
  | Some ((_ :: _) as path) =>
      r ← try_except
        (for_line_of path (λ line,
           if startswith line (py "Icon=") then
             icon_name ← getitem (split1 61 (strip line)) 1;
             print (DbgDesktopIcon path icon_name);;
             mret (Some icon_name)
           else mret None))
        (λ _, true)
        (λ e,
         print (DbgReadError path e);;
         mret None);
      match r with
      | Some icon_name => mret (Some icon_name)
      | None => mret None
      end
  | _ => mret None
  end.

Section Lower.

(** [str.lower]: the interpreter's Unicode lower-casing. *)
Variable lower : str → str.

Definition find_desktop_file (name_guess : str) : M (option str) :=
  let target := remove_spaces (lower name_guess) in
  dirs ← DESKTOP_DIRS;
  for_return dirs (λ directory,
    there ← path_exists directory;
    if negb (there : bool) then mret None
    else
      files ← listdir directory;
      for_return files (λ file,
        if negb (endswith file (py ".desktop")) then mret None
        else if contains target (remove_spaces (lower file))
        then mret (Some (path_join directory [file]))
        else mret None)).

(** The three [append]s that build [candidates]. *)
Definition base_candidates (icon_from_desktop exe_name last_word : option str)
    : list str :=
  let candidates : list str := [] in
  let candidates :=
    if truthy icon_from_desktop
    then candidates ++ [default [] icon_from_desktop] else candidates in
  let candidates :=
    if truthy exe_name
    then candidates ++ [default [] exe_name] else candidates in
  if truthy last_word
  then candidates ++ [default [] last_word] else candidates.

(** The loop that builds [extra]. *)
Definition derived_variants (candidates : list str) : list str :=
  foldl (λ extra s,
           if negb (truthy (Some s)) then extra
           else
             let s2 := lower s in
             let s3 := remove_spaces s2 in
             let extra :=
               if has_char 46 s2 then extra ++ [after_last 46 s2]
               else extra in
             extra ++ [s2; s3]) [] candidates.

(** The loop that deduplicates, on the pair ([seen], [all_cands]). *)
Definition dedup_into (st : gset str * list str) (cs : list str)
    : gset str * list str :=
  foldl (λ '(seen, all_cands) c,
           if truthy (Some c) && bool_decide (c ∉ seen)
           then ({[c]} ∪ seen, all_cands ++ [c])
           else (seen, all_cands)) st cs.

(** The loop over the words of [last_word]. *)
Definition add_words (st : gset str * list str) (words : list str)
    : gset str * list str :=
  foldl (λ '(seen, all_cands) w,
           let w_lower := lower w in
           if bool_decide (w_lower ∉ seen)
           then ({[w_lower]} ∪ seen, all_cands ++ [w_lower])
           else (seen, all_cands)) st words.

(** The list [all_cands] that [build_icon_candidates] computes once the
    icon of the descriptor has been read. *)
Definition candidates_for (icon_from_desktop exe_name last_word : option str)
    : list str :=
  let candidates := base_candidates icon_from_desktop exe_name last_word in
  let extra := derived_variants candidates in
  let st := dedup_into (∅, []) (candidates ++ extra) in
  let st :=
    if truthy last_word
    then add_words st (split (default [] last_word))
    else st in
  st.2.

Definition build_icon_candidates (desktop_file exe_name last_word : option str)
    : M (list str) :=
  icon_from_desktop ← read_icon_from_desktop desktop_file;
  let all_cands := candidates_for icon_from_desktop exe_name last_word in
  print (DbgCandidates all_cands);;
  mret all_cands.

Definition get_icon_path (desktop_file exe_name last_word : option str)
    (search_paths : list str) : M (option str) :=
  cands ← build_icon_candidates desktop_file exe_name last_word;
  for_return cands (λ cand,
    found ← search_icon cand search_paths;
    print (DbgTrying cand found);;
    if truthy found then mret found else mret None).

(** One turn of the loop of [main], up to the icon path: normalise the
    title, locate the descriptor, resolve the icon. *)
Definition resolve (exe win_name : str) (search_paths : list str)
    : M (option str) :=
  last_word ← extract_last_word_after_dash (Some win_name);
  desktop_file ← find_desktop_file last_word;
  get_icon_path desktop_file (Some exe) (Some last_word) search_paths.

End Lower.

(** ** Concrete operating systems for the examples *)

(** Lookup in a table of the examples. *)
Definition assoc {A} (tbl : list (str * A)) (k : str) : option A :=
  snd <$> find (λ kv, bool_decide (kv.1 = k)) tbl.

(** A small machine: directory listings, walks of icon roots, text files,
    environment variables, the home directory and the outcome of the one
    child process the program starts. Its standard output has the default
    error handler. *)
Definition machine (listings : list (str * list str))
    (walks : list (str * list (str * list str * list str)))
    (files : list (str * list str)) (env : list (str * str)) (home : str)
    (proc : proc_outcome) : OS := {|
  os_path_exists p :=
    bool_decide (is_Some (assoc listings p))
    || bool_decide (is_Some (assoc walks p))
    || bool_decide (is_Some (assoc files p));
  os_listdir p :=
    match assoc listings p with
    | Some l => Ok l
    | None =>
        if bool_decide (is_Some (assoc files p))
        then Raise NotADirectoryError else Raise FileNotFoundError
    end;
  os_walk p := default [] (assoc walks p);
  os_open p :=
    match assoc files p with
    | Some ls => Opened ls None
    | None => OpenError FileNotFoundError
    end;
  os_environ_get k := assoc env k;
  os_path_expanduser p :=
    match p with
    | 126 :: rest => home ++ rest
    | _ => p
    end;
  os_run _ := proc;
  os_stdout_errors := Strict
|}.

(** The world at the start of a run: nothing printed yet. *)
Definition boot (os : OS) : World := {| w_os := os; w_stdout := [] |}.

(** A line of a text file, with its terminator. *)
Definition text_line (s : string) : str := py s ++ [10].

(** A desktop with a descriptor "org.example.App.desktop" whose icon line
    ends in two spaces, a "firefox.desktop" both system-wide and in the
    user's directory, and two icon roots. The theme query prints "Adw"
    followed by an em dash. *)
Definition os1 : OS :=
  machine
    [(py "/usr/share/applications",
      [py "mimeinfo.cache"; py "org.example.App.desktop";
       py "firefox.desktop"]);
     (py "/home/u/.local/share/applications", [py "firefox.desktop"])]
    [(py "/usr/share/icons/hicolor",
      [(py "/usr/share/icons/hicolor", [py "48x48"], []);
       (py "/usr/share/icons/hicolor/48x48", [],
        [py "app.svg"; py "firefox.png"])]);
     (py "/usr/share/pixmaps", [(py "/usr/share/pixmaps", [], [py "app.png"])])]
    [(py "/usr/share/applications/org.example.App.desktop",
      [text_line "[Desktop Entry]"; text_line "Icon=org.example.App  "])]
    [] (py "/home/u") (Exited 0 [65; 100; 119; 226; 128; 148; 10]).

(** Two icon roots: the first holds the icon as a gif only, the second as
    a png. *)
Definition os_two_roots : OS :=
  machine []
    [(py "/t/first", [(py "/t/first", [py "apps"], []);
                      (py "/t/first/apps", [], [py "htop.gif"])]);
     (py "/t/second", [(py "/t/second", [], [py "htop.png"])])]
    [] [] (py "/home/u") (Exited 0 []).

(** The system-wide directory exists but holds no descriptor; the
    user-local one holds two. *)
Definition os_sparse : OS :=
  machine
    [(py "/usr/share/applications", [py "mimeinfo.cache"]);
     (py "/home/u/.local/share/applications",
      [py "notes.txt"; py "zim.desktop"; py "abiword.desktop"])]
    [] [] [] (py "/home/u") (Exited 0 []).

(** A descriptor whose file name is not UTF-8: the byte 0xE9 of the name
    reaches the program as the surrogate U+DCE9. *)
Definition os_latin1_name : OS :=
  machine
    [(py "/usr/share/applications", [py "caf" ++ [56553] ++ py ".desktop"])]
    []
    [(py "/usr/share/applications/caf" ++ [56553] ++ py ".desktop",
      [text_line "Icon=cafe"])]
    [] (py "/home/u") (Exited 0 []).

(** A machine on which xfconf-query is not installed. *)
Definition os_no_xfconf : OS :=
  machine [] [] [] [] (py "/home/u") (NotStarted FileNotFoundError).

(** A machine on which xfconf-query exits with status 1. *)
Definition os_xfconf_fails : OS :=
  machine [] [] [] [] (py "/home/u") (Exited 1 []).

(** A machine on which xfconf-query prints a byte that is not UTF-8. *)
Definition os_xfconf_garbled : OS :=
  machine [] [] [] [] (py "/home/u") (Exited 0 [65; 255; 10]).

(** ** Notions used by the statements *)

(** A computation only queries the operating system: it leaves it as it
    found it, and its outcome depends on nothing else in the world (not on
    the debug output printed so far). *)
Definition reads_only {A} (m : M A) : Prop :=
  ∀ w, w_os (world_after m w) = w_os w
       ∧ ∀ w', w_os w' = w_os w → result_of m w' = result_of m w.

(** A word of [split]: not empty, free of whitespace. *)
Definition is_word (t : str) : Prop :=
  t ≠ [] ∧ Forall (λ x, isspace x = false) t.

(** The string begins with a character of a word. *)
Definition starts_word (s : str) : bool :=
  match s with
  | y :: _ => negb (isspace y)
  | [] => false
  end.

(** What [after_last] does, seen on the words of the string. *)
Fixpoint words_after_last (c : char) (ws : list str) : list str :=
  match ws with
  | [] => []
  | t :: ws' =>
      if existsb (has_char c) ws' then words_after_last c ws'
      else if has_char c t
           then match after_last c t with
                | [] => ws'
                | a => a :: ws'
                end
           else ws
  end.

(** The separator the normaliser works with: the first of em dash, en
    dash, hyphen, in that order, that occurs in the title. *)
Definition first_dash (title : str) : option char :=
  find (λ sep, has_char sep title) DASHES.

(** The last whitespace-delimited token, the empty string if there is
    none. *)
Definition last_token (s : str) : str := default [] (last (split s)).

(** The first element of [xs] on which [f] answers. *)
Fixpoint first_some {X R} (f : X → option R) (xs : list X) : option R :=
  match xs with
  | [] => None
  | x :: xs' =>
      match f x with
      | Some v => Some v
      | None => first_some f xs'
      end
  end.

(** The directory of a theme under a data root. *)
Definition icon_dir (theme base : str) : str :=
  path_join base [py "icons"; theme].

(** The data roots: the user's, then the system's, in order. *)
Definition data_roots (os : OS) : list str :=
  from_option id (os_path_expanduser os (py "~/.local/share"))
    (os_environ_get os (py "XDG_DATA_HOME"))
  :: split_on 58 (from_option id (py "/usr/local/share:/usr/share")
                    (os_environ_get os (py "XDG_DATA_DIRS"))).

(** The directories a theme may live in, in search order: the theme under
    every data root, hicolor under every data root, the pixmaps directory. *)
Definition search_path_candidates (os : OS) (theme : str) : list str :=
  (icon_dir theme <$> data_roots os)
  ++ (icon_dir (py "hicolor") <$> data_roots os)
  ++ [py "/usr/share/pixmaps"].

(** The file name [search_icon] looks for under one extension. *)
Definition icon_file (icon_name ext : str) : str := icon_name ++ py "." ++ ext.

(** What one directory of a walk answers: the first recognised extension,
    in the order of [ICON_EXTS], under which it holds the icon. *)
Definition match_in_dir (icon_name : str) (triple : str * list str * list str)
    : option str :=
  let '(root, _, files) := triple in
  first_some (λ ext,
    if bool_decide (icon_file icon_name ext ∈ files)
    then Some (path_join root [icon_file icon_name ext]) else None) ICON_EXTS.

(** What one search root answers: the first directory of its walk that
    holds the icon under any recognised extension. *)
Definition match_in_root (os : OS) (icon_name base : str) : option str :=
  first_some (match_in_dir icon_name) (os_walk os base).

(** The search root [base] holds the icon: a directory of its walk has a
    file named after the icon with a recognised extension. *)
Definition root_holds (os : OS) (icon_name base : str) : Prop :=
  ∃ root dirs files ext,
    (root, dirs, files) ∈ os_walk os base ∧ ext ∈ ICON_EXTS
    ∧ icon_file icon_name ext ∈ files.

(** The path [p] is that of such a file under the search root [base]. *)
Definition found_under (os : OS) (icon_name base p : str) : Prop :=
  ∃ root dirs files ext,
    (root, dirs, files) ∈ os_walk os base ∧ ext ∈ ICON_EXTS
    ∧ icon_file icon_name ext ∈ files
    ∧ p = path_join root [icon_file icon_name ext].

(** The directory listing the locator works on. *)
Definition listing (os : OS) (d : str) : list str :=
  match os_listdir os d with
  | Ok files => files
  | Raise _ => []
  end.

(** Every descriptor directory that exists can be listed. *)
Definition listable (os : OS) (dirs : list str) : Prop :=
  ∀ d, d ∈ dirs → os_path_exists os d = true →
       ∃ files, os_listdir os d = Ok files.

(** The descriptor directories in the order [DESKTOP_DIRS] has them:
    system-wide, user-local, flatpak exports, snap. *)
Definition system_first (os : OS) : list str :=
  [py "/usr/share/applications";
   os_path_expanduser os (py "~/.local/share/applications");
   py "/var/lib/flatpak/exports/share/applications";
   py "/var/lib/snapd/desktop/applications"].

(** The same directories with the user-local one in front. *)
Definition user_local_first (os : OS) : list str :=
  [os_path_expanduser os (py "~/.local/share/applications");
   py "/usr/share/applications";
   py "/var/lib/flatpak/exports/share/applications";
   py "/var/lib/snapd/desktop/applications"].

Section Locate.

Variable lower : str → str.

(** A file name is a descriptor that matches the key. *)
Definition descriptor_matches (key file : str) : bool :=
  endswith file (py ".desktop") && contains key (remove_spaces (lower file)).

(** Scanning [dirs] in order: in the first existing directory that has a
    matching descriptor, the first one in listing order. *)
Definition scan_dirs (os : OS) (dirs : list str) (hint : str) : option str :=
  let key := remove_spaces (lower hint) in
  first_some (λ d,
    if os_path_exists os d
    then (λ file, path_join d [file])
           <$> find (descriptor_matches key) (listing os d)
    else None) dirs.

End Locate.

(** The first file ending in '.desktop' in the listing of [d]. *)
Definition first_descriptor (os : OS) (d : str) : option str :=
  (λ file, path_join d [file])
    <$> find (λ file, endswith file (py ".desktop")) (listing os d).

(** The first descriptor of the first descriptor directory that exists. *)
Definition in_first_existing (os : OS) (dirs : list str) : option str :=
  find (os_path_exists os) dirs ≫= first_descriptor os.

(** Some descriptor directory exists and holds a file ending in
    '.desktop'. *)
Definition some_descriptor (os : OS) (dirs : list str) : Prop :=
  ∃ d file, d ∈ dirs ∧ os_path_exists os d = true
            ∧ file ∈ listing os d ∧ endswith file (py ".desktop") = true.

(** The first descriptor of the first existing descriptor directory that
    holds one. *)
Definition in_first_with_descriptor (os : OS) (dirs : list str) : option str :=
  first_some (λ d, if os_path_exists os d then first_descriptor os d else None)
    dirs.

(** The line without its terminator. *)
Definition chomp (line : str) : str :=
  match reverse line with
  | 10 :: rest => reverse rest
  | _ => line
  end.

(** What follows the first '=' of a line, nothing trimmed. *)
Definition untrimmed_value (line : str) : str :=
  default [] (split1 61 line !! 1%nat).

(** The value [read_icon_from_desktop] takes from an "Icon=" line. *)
Definition icon_value (line : str) : str := rstrip (drop 5 line).

(** What the handler of [read_icon_from_desktop] gives: absent, once the
    message that names the path is printed; the error of that [print]
    when the standard output cannot encode the path. *)
Definition read_failed (os : OS) (path : str) : PyResult (option str) :=
  if encodable os path then Ok None else Raise UnicodeEncodeError.

(** What [read_icon_from_desktop] answers for a descriptor path that is
    not empty: the value of the first "Icon=" line of the file, once the
    line that names the path and the value is printed. *)
Definition declared_icon (os : OS) (path : str) : PyResult (option str) :=
  match os_open os path with
  | OpenError _ => read_failed os path
  | Opened lines read_error =>
      match find (λ line, startswith line (py "Icon=")) lines with
      | Some line =>
          if encodable os (path ++ icon_value line)
          then Ok (Some (icon_value line))
          else read_failed os path
      | None =>
          match read_error with
          | Some _ => read_failed os path
          | None => Ok None
          end
      end
  end.

(** The invariant of the pair ([seen], [all_cands]). *)
Definition cand_inv (st : gset (list N) * list (list N)) : Prop :=
  NoDup (st.2) ∧ ([] ∉ st.2) ∧ (∀ x, x ∈ st.1 ↔ x ∈ st.2).

(** [a] stands before [b] in the list [l]. *)
Definition comes_before (a b : str) (l : list str) : Prop :=
  ∃ i j, (i < j)%nat ∧ l !! i = Some a ∧ l !! j = Some b.

(** *** The hint of a title, as the specification words it *)

(** Nothing but whitespace. *)
Definition blank (s : str) : Prop := Forall (λ c, isspace c = true) s.

(** The text is empty or ends in whitespace: a token may start after it. *)
Definition ends_blank (a : str) : Prop :=
  a = [] ∨ ∃ a' c, a = a' ++ [c] ∧ isspace c = true.

(** The text is empty or starts with whitespace: a token may end before
    it. *)
Definition starts_blank (r : str) : Prop :=
  r = [] ∨ ∃ c r', r = c :: r' ∧ isspace c = true.

(** The separator that is used for a title: the em dash if the title has
    one, else the en dash if it has one, else the hyphen if it has one. *)
Inductive chosen_separator (title : str) : char → Prop :=
| chosen_em_dash :
    8212 ∈ title → chosen_separator title 8212
| chosen_en_dash :
    8212 ∉ title → 8211 ∈ title → chosen_separator title 8211
| chosen_hyphen :
    8212 ∉ title → 8211 ∉ title → 45 ∈ title → chosen_separator title 45.

(** [tok] is the last whitespace token of the text: a word of the text
    with nothing but whitespace after it. A text without any token has
    the empty string in its place. *)
Inductive last_token_of : str → str → Prop :=
| last_token_none s :
    blank s → last_token_of s []
| last_token_some a tok b :
    ends_blank a → is_word tok → blank b →
    last_token_of (a ++ tok ++ b) tok.

(** [ws] are the whitespace tokens of the text, in order. *)
Inductive tokens_of : str → list str → Prop :=
| tokens_none g :
    blank g → tokens_of g []
| tokens_cons g t r ts :
    blank g → is_word t → starts_blank r → tokens_of r ts →
    tokens_of (g ++ t ++ r) (t :: ts).

(** The tokens written one after the other with one space between
    them. *)
Inductive spaced : list str → str → Prop :=
| spaced_none :
    spaced [] []
| spaced_one t :
    spaced [t] t
| spaced_more t ts r :
    ts ≠ [] → spaced ts r → spaced (t :: ts) (t ++ 32 :: r).

(** The hint of a title: the last whitespace token of what follows the
    last occurrence of the separator used; for a title without any of the
    three separators, the title trimmed and with its whitespace collapsed,
    which is its tokens with one space between them. *)
Inductive normalized (title : str) : str → Prop :=
| normalized_after_separator sep before after tok :
    chosen_separator title sep →
    title = before ++ sep :: after → sep ∉ after →
    last_token_of after tok →
    normalized title tok
| normalized_whole_title ws hint :
    8212 ∉ title → 8211 ∉ title → 45 ∉ title →
    tokens_of title ws → spaced ws hint →
    normalized title hint.
(** ** Further functions of the program *)

(** *** The window list *)

(** The line boundaries of [str.splitlines]. *)
Definition is_linebreak (c : char) : bool :=
  ((10 <=? c) && (c <=? 13)) || ((28 <=? c) && (c <=? 30))
  || (c =? 133) || (c =? 8232) || (c =? 8233).

(** [s.splitlines()]; [after_cr] tells that the character before was a
    carriage return, whose line feed belongs to the same boundary. *)
Fixpoint splitlines_from (after_cr : bool) (s : str) : list str :=
  match s with
  | [] => []
  | c :: s' =>
      if after_cr && (c =? 10) then splitlines_from false s'
      else if is_linebreak c then [] :: splitlines_from (c =? 13) s'
      else match splitlines_from false s' with
           | l :: ls => (c :: l) :: ls
           | [] => [[c]]
           end
  end.

Definition splitlines (s : str) : list str := splitlines_from false s.

(** The word at the start of [s] and what follows it. *)
Fixpoint word_end (s : str) : str * str :=
  match s with
  | [] => ([], [])
  | c :: s' =>
      if isspace c then ([], s)
      else let '(w, r) := word_end s' in (c :: w, r)
  end.

(** [s.split(None, maxsplit)]: at most [maxsplit] words are split off;
    what is left, without its leading whitespace, is the last piece. *)
Fixpoint split_max (maxsplit : nat) (s : str) : list str :=
  match lstrip s with
  | [] => []
  | r =>
      match maxsplit with
      | O => [r]
      | S n => let '(w, rest) := word_end r in w :: split_max n rest
      end
  end.

(** The command that lists the windows. *)
Definition wmctrl_lx : list str := [py "wmctrl"; py "-lx"].

(** A window is the triple of its id, its exec hint and its title.
    [parts] has at most five elements ([split_max_length] below), so the
    unpacking of a list that has at least five cannot fail: the last
    branch of the match is never taken. *)
Definition get_running_windows (lower : str → str)
    : M (list (str * str * str)) :=
  let windows : list (str * str * str) := [] in
  r ← try_except
    (out ← check_output wmctrl_lx;
     output ← decode out;
     mret (Some output))
    is_CalledProcessError
    (λ _, mret None);
  match r with
  | None => mret windows
  | Some output =>
      for_each (splitlines output) (λ line windows,
        let parts := split_max 4 line in
        if (length parts <? 5)%nat then mret windows
        else
          match parts with
          | [win_id; wm_class_full; _; _; win_name] =>
              let exe_name := lower (after_last 46 wm_class_full) in
              mret (windows ++ [(win_id, exe_name, win_name)])
          | _ => mret windows
          end) windows
  end.

(** *** The grid of [main] *)

Definition padding : Z := 12.

(** The cursor arithmetic of the loop of [main]: where each button is
    placed, from the width of the screen and the sizes ([w], [h]) Tk
    requests for the buttons, in window order. [x], [y] and [row_height]
    are the variables of the loop; the calls of Tk and the debug lines of
    the loop are left out. *)
Fixpoint place_buttons (screen_width x y row_height : Z)
    (sizes : list (Z * Z)) : list (Z * Z) :=
  match sizes with
  | [] => []
  | (w, h) :: sizes' =>
      let '(x, y, row_height) :=
        if (x + w + padding >? screen_width)%Z
        then (padding, (y + (row_height + padding))%Z, 0%Z)
        else (x, y, row_height) in
      (x, y) :: place_buttons screen_width (x + (w + padding))%Z y
                  (if (h >? row_height)%Z then h else row_height) sizes'
  end.

(** The positions [main] gives the buttons: the cursor starts at
    ([padding], [padding]) with a row of height 0. *)
Definition button_positions (screen_width : Z) (sizes : list (Z * Z))
    : list (Z * Z) :=
  place_buttons screen_width padding padding 0 sizes.

(** ** Further notions *)

(** The sizes Tk requests are not negative. *)
Definition nonneg_sizes (sizes : list (Z * Z)) : Prop :=
  Forall (λ s : Z * Z, (0 ≤ s.1)%Z ∧ (0 ≤ s.2)%Z) sizes.

(** The window a line of the list gives, if it has five fields. *)
Definition parse_window (lower : str → str) (line : str)
    : option (str * str * str) :=
  match split_max 4 line with
  | [win_id; wm_class_full; _; _; win_name] =>
      Some (win_id, lower (after_last 46 wm_class_full), win_name)
  | _ => None
  end.

(** The first element of [xs] on which [f] answers or fails. *)
Fixpoint first_result {X R} (f : X → PyResult (option R)) (xs : list X)
    : PyResult (option R) :=
  match xs with
  | [] => Ok None
  | x :: xs' =>
      match f x with
      | Ok None => first_result f xs'
      | r => r
      end
  end.

(** What [get_icon_path] gets from one candidate: what [search_icon]
    finds for it, once the line that names the candidate and the path
    found is printed. *)
Definition try_candidate (os : OS) (search_paths : list str) (cand : str)
    : PyResult (option str) :=
  let found := first_some (match_in_root os cand) search_paths in
  if encodable os (cand ++ default [] found) then Ok found
  else Raise UnicodeEncodeError.

(** What the locator gets from one descriptor directory. *)
Definition scan_dir (lower : str → str) (os : OS) (key d : str)
    : PyResult (option str) :=
  if os_path_exists os d then
    match os_listdir os d with
    | Ok files =>
        Ok ((λ file, path_join d [file])
              <$> find (descriptor_matches lower key) files)
    | Raise e => Raise e
    end
  else Ok None.

(** The hint the normaliser gives for a title. *)
Definition hint_of (title : str) : str :=
  match first_dash title with
  | Some sep => last_token (after_last sep title)
  | None => join (py " ") (split title)
  end.

(** ** Further machines for the examples *)

(** A desktop with three windows; the second has an empty title. *)
Definition os_windows : OS :=
  machine [] [] [] [] (py "/home/u")
    (Exited 0 (text_line
       "0x03 0 xfce4-terminal.Xfce4-terminal  host htop"
     ++ text_line "0x04 0 mousepad.Mousepad  host "
     ++ text_line "0x05 -1 Navigator.Firefox  host  Mozilla  Firefox ")).

(** A walk whose second directory holds the icon as a gif and an svg, its
    third as a png. *)
Definition os_walk_order : OS :=
  machine []
    [(py "/t/icons",
      [(py "/t/icons", [py "scalable"; py "48"], []);
       (py "/t/icons/scalable", [], [py "htop.gif"; py "htop.svg"]);
       (py "/t/icons/48", [], [py "htop.png"])])]
    [] [] (py "/home/u") (Exited 0 []).

(** Two icon roots and a descriptor: the icon of the descriptor is found
    in the second root only, the lower-cased exec hint in the first. *)
Definition os_candidates : OS :=
  machine
    [(py "/usr/share/applications", [py "editor.desktop"])]
    [(py "/t/first", [(py "/t/first", [], [py "mousepad.png"])]);
     (py "/t/second", [(py "/t/second", [], [py "accessories-editor.xpm"])])]
    [(py "/usr/share/applications/editor.desktop",
      [text_line "Icon=accessories-editor"])]
    [] (py "/home/u") (Exited 0 []).

(** The system-wide descriptor directory is a regular file: it exists
    but cannot be listed. *)
Definition os_unlistable : OS :=
  machine
    [(py "/home/u/.local/share/applications", [py "zim.desktop"])]
    []
    [(py "/usr/share/applications", [])]
    [] (py "/home/u") (Exited 0 []).
(** * Properties *)

(** ** The monad *)

Lemma run_bind {A B} (m : M A) (f : A → M B) w a w' :
  m w = (Ok a, w') → (m ≫= f) w = f a w'.
Proof. intros H. unfold mbind, M_bind. by rewrite H. Qed.

Lemma run_bind_raise {A B} (m : M A) (f : A → M B) w e w' :
  m w = (Raise e, w') → (m ≫= f) w = (Raise e, w').
Proof. intros H. unfold mbind, M_bind. by rewrite H. Qed.

Lemma result_of_bind {A B} (m : M A) (f : A → M B) w :
  result_of (m ≫= f) w =
  match result_of m w with
  | Ok a => result_of (f a) (world_after m w)
  | Raise e => Raise e
  end.
Proof.
  unfold result_of, world_after, mbind, M_bind.
  by destruct (m w) as [[a|e] w'].
Qed.

Lemma result_of_bind_ok {A B} (m : M A) (f : A → M B) w a :
  result_of m w = Ok a →
  result_of (m ≫= f) w = result_of (f a) (world_after m w).
Proof.
  unfold result_of, world_after, mbind, M_bind.
  destruct (m w) as [r w']. simpl. by intros ->.
Qed.

Lemma result_of_try_except {A} (body : M A) catches handler w :
  result_of (try_except body catches handler) w =
  match result_of body w with
  | Ok a => Ok a
  | Raise e =>
      if catches e then result_of (handler e) (world_after body w)
      else Raise e
  end.
Proof.
  unfold result_of, world_after, try_except.
  destruct (body w) as [[a|e] w']; [done|]. simpl. by destruct (catches e).
Qed.

Lemma print_ok d w :
  encodable (w_os w) (interpolated d) = true →
  print d w = (Ok (), {| w_os := w_os w; w_stdout := w_stdout w ++ [d] |}).
Proof. unfold print. by intros ->. Qed.

Lemma print_fails d w :
  encodable (w_os w) (interpolated d) = false →
  print d w = (Raise UnicodeEncodeError, w).
Proof. unfold print. by intros ->. Qed.

Lemma reads_only_ret {A} (a : A) : reads_only (mret a).
Proof. by intros w. Qed.

Lemma reads_only_raise {A} (e : exn) : reads_only (@raise A e).
Proof. by intros w. Qed.

Lemma reads_only_lift {A} (r : PyResult A) : reads_only (lift r).
Proof. by intros w. Qed.

Lemma reads_only_ask {A} (q : OS → A) : reads_only (ask q).
Proof.
  intros w; split; [done|].
  intros w' Hw. unfold result_of, ask; simpl. by rewrite Hw.
Qed.

Lemma reads_only_print d : reads_only (print d).
Proof.
  intros w; split.
  - unfold world_after, print. by destruct (encodable _ _).
  - intros w' Hw. unfold result_of, print. rewrite Hw.
    by destruct (encodable _ _).
Qed.

Lemma reads_only_bind {A B} (m : M A) (f : A → M B) :
  reads_only m → (∀ a, reads_only (f a)) → reads_only (m ≫= f).
Proof.
  intros Hm Hf w. unfold reads_only, world_after, result_of in *.
  unfold mbind, M_bind.
  destruct (Hm w) as [Hos Hres].
  split.
  - destruct (m w) as [[a|e] w1] eqn:E; simpl in *; [|done].
    destruct (Hf a w1) as [H1 _]. by rewrite H1.
  - intros w' Hw. specialize (Hres w' Hw).
    destruct (Hm w') as [Hos' _].
    destruct (m w) as [[a|e] w1] eqn:E, (m w') as [[a'|e'] w1'] eqn:E';
      simpl in *; try congruence.
    injection Hres as ->.
    destruct (Hf a w1) as [_ H2]. apply H2. congruence.
Qed.

Lemma reads_only_try_except {A} (body : M A) catches handler :
  reads_only body → (∀ e, reads_only (handler e)) →
  reads_only (try_except body catches handler).
Proof.
  intros Hm Hf w. unfold reads_only, world_after, result_of in *.
  unfold try_except.
  destruct (Hm w) as [Hos Hres].
  split.
  - destruct (body w) as [[a|e] w1] eqn:E; simpl in *; [done|].
    destruct (catches e); [|done].
    destruct (Hf e w1) as [H1 _]. by rewrite H1.
  - intros w' Hw. specialize (Hres w' Hw).
    destruct (Hm w') as [Hos' _].
    destruct (body w) as [[a|e] w1] eqn:E, (body w') as [[a'|e'] w1'] eqn:E';
      simpl in *; try congruence.
    injection Hres as ->.
    destruct (catches e); [|done].
    destruct (Hf e w1) as [_ H2]. apply H2. congruence.
Qed.

Lemma reads_only_for_return {X R} (xs : list X) (body : X → M (option R)) :
  (∀ x, reads_only (body x)) → reads_only (for_return xs body).
Proof.
  intros Hb. induction xs as [|x xs IH]; simpl.
  - apply reads_only_ret.
  - apply reads_only_bind; [done|].
    intros [v|]; [apply reads_only_ret | done].
Qed.

Lemma reads_only_for_each {X S} (xs : list X) (body : X → S → M S) s :
  (∀ x s, reads_only (body x s)) → reads_only (for_each xs body s).
Proof.
  intros Hb. revert s. induction xs as [|x xs IH]; intros s; simpl.
  - apply reads_only_ret.
  - apply reads_only_bind; [done|]. intros s'. apply IH.
Qed.

Ltac reads_step :=
  first
    [ apply reads_only_ret | apply reads_only_raise | apply reads_only_lift
    | apply reads_only_ask | apply reads_only_print
    | apply reads_only_bind; [|intros ?]
    | apply reads_only_try_except; [|intros ?]
    | apply reads_only_for_return; intros ?
    | apply reads_only_for_each; intros ? ?
    | match goal with
      | |- reads_only (match ?x with _ => _ end) => destruct x
      | |- reads_only (let '(_, _) := ?x in _) => destruct x
      end ].

Create HintDb reads discriminated.

Ltac reads := repeat (cbv zeta; reads_step); eauto with reads nocore.

Lemma reads_only_path_exists p : reads_only (path_exists p).
Proof. unfold path_exists. reads. Qed.

Lemma reads_only_listdir p : reads_only (listdir p).
Proof. unfold listdir. reads. Qed.

Lemma reads_only_walk p : reads_only (walk p).
Proof. unfold walk. reads. Qed.

Lemma reads_only_environ_get k d : reads_only (environ_get k d).
Proof. unfold environ_get. reads. Qed.

Lemma reads_only_expanduser p : reads_only (expanduser p).
Proof. unfold expanduser. reads. Qed.

Lemma reads_only_check_output cmd : reads_only (check_output cmd).
Proof. unfold check_output. reads. Qed.

Lemma reads_only_decode bs : reads_only (decode bs).
Proof. unfold decode. reads. Qed.

Lemma reads_only_getitem {A} (l : list A) i : reads_only (getitem l i).
Proof. unfold getitem. reads. Qed.

#[local] Hint Resolve reads_only_path_exists reads_only_listdir
  reads_only_walk reads_only_environ_get reads_only_expanduser
  reads_only_check_output reads_only_decode reads_only_getitem : reads.

Lemma reads_only_for_line_of {R} path (body : str → M (option R)) :
  (∀ line, reads_only (body line)) → reads_only (for_line_of path body).
Proof. intros Hb. unfold for_line_of. reads. Qed.

Lemma reads_only_DESKTOP_DIRS : reads_only DESKTOP_DIRS.
Proof. unfold DESKTOP_DIRS. reads. Qed.

#[local] Hint Resolve reads_only_DESKTOP_DIRS : reads.

Lemma reads_only_get_current_icon_theme : reads_only get_current_icon_theme.
Proof. unfold get_current_icon_theme. reads. Qed.

Lemma reads_only_get_icon_search_paths theme :
  reads_only (get_icon_search_paths theme).
Proof. unfold get_icon_search_paths. reads. Qed.

Lemma reads_only_search_icon name paths : reads_only (search_icon name paths).
Proof. unfold search_icon. reads. Qed.

Lemma reads_only_extract_last_word_after_dash win_name :
  reads_only (extract_last_word_after_dash win_name).
Proof. unfold extract_last_word_after_dash. reads. Qed.

Lemma reads_only_read_icon_from_desktop desktop_file :
  reads_only (read_icon_from_desktop desktop_file).
Proof.
  unfold read_icon_from_desktop. reads.
Qed.

Lemma reads_only_find_desktop_file lower name_guess :
  reads_only (find_desktop_file lower name_guess).
Proof. unfold find_desktop_file. reads. Qed.

#[local] Hint Resolve reads_only_search_icon
  reads_only_extract_last_word_after_dash reads_only_read_icon_from_desktop
  reads_only_find_desktop_file : reads.

Lemma reads_only_build_icon_candidates lower desktop_file exe_name last_word :
  reads_only (build_icon_candidates lower desktop_file exe_name last_word).
Proof. unfold build_icon_candidates. reads. Qed.

#[local] Hint Resolve reads_only_build_icon_candidates : reads.

Lemma reads_only_get_icon_path lower desktop_file exe_name last_word paths :
  reads_only (get_icon_path lower desktop_file exe_name last_word paths).
Proof. unfold get_icon_path. reads. Qed.

#[local] Hint Resolve reads_only_get_icon_path : reads.

Lemma reads_only_resolve lower exe win_name paths :
  reads_only (resolve lower exe win_name paths).
Proof. unfold resolve. reads. Qed.

(** C9: the resolution pipeline is deterministic. Running [resolve] a
    second time, in the world the first run leaves behind, for the same
    window (title and exec hint) and the same search paths, gives the same
    outcome (the same path, or absent), and the first run leaves the
    operating system (the file system with it) as it found it. *)
Theorem resolve_twice_same_result lower exe win_name search_paths w :
  let run := resolve lower exe win_name search_paths in
  w_os (world_after run w) = w_os w
  ∧ result_of run (world_after run w) = result_of run w.
Proof.
  intros run.
  destruct (reads_only_resolve lower exe win_name search_paths w) as [H1 H2].
  split; [exact H1|]. apply H2. exact H1.
Qed.


(** ** Strings *)

Lemma has_char_nil c : has_char c [] = false.
Proof. done. Qed.

Lemma has_char_cons c x s : has_char c (x :: s) = (x =? c) || has_char c s.
Proof. unfold has_char; simpl. destruct s; by rewrite andb_true_r. Qed.

Lemma has_char_app c s1 s2 :
  has_char c (s1 ++ s2) = has_char c s1 || has_char c s2.
Proof.
  induction s1 as [|x s1 IH]; [done|].
  rewrite <- app_comm_cons, !has_char_cons, IH. by rewrite orb_assoc.
Qed.

Lemma has_char_elem_of c s : has_char c s = true ↔ c ∈ s.
Proof.
  induction s as [|x s IH].
  - rewrite has_char_nil. split; [done|]. by intros ?%elem_of_nil.
  - rewrite has_char_cons, orb_true_iff, elem_of_cons, IH, N.eqb_eq.
    split; intros [?|?]; auto.
Qed.

Lemma has_char_space_free c t :
  isspace c = true → Forall (λ x, isspace x = false) t → has_char c t = false.
Proof.
  intros Hc. induction 1 as [|x t Hx _ IH]; [done|].
  rewrite has_char_cons, IH, orb_false_r.
  apply N.eqb_neq. congruence.
Qed.

Lemma after_last_absent c s : has_char c s = false → after_last c s = s.
Proof.
  destruct s as [|x s]; [done|].
  rewrite has_char_cons. intros [Hx Hs]%orb_false_iff.
  simpl. by rewrite Hs, Hx.
Qed.

Lemma after_last_cons_later c x s :
  has_char c s = true → after_last c (x :: s) = after_last c s.
Proof. intros H. simpl. by rewrite H. Qed.

Lemma split_space c s : isspace c = true → split (c :: s) = split s.
Proof. intros H. simpl. by rewrite H. Qed.

Lemma split_all_space s : Forall (λ x, isspace x = true) s → split s = [].
Proof.
  induction 1 as [|x s Hx _ IH]; [done|]. by rewrite split_space.
Qed.

Lemma split_nil_inv s : split s = [] → Forall (λ x, isspace x = true) s.
Proof.
  induction s as [|x s IH]; [done|]. simpl.
  destruct (isspace x) eqn:Hx.
  - intros H. constructor; auto.
  - destruct s as [|y s]; [done|].
    destruct (isspace y); [done|]. by destruct (split (y :: s)).
Qed.

(** The two shapes of [split] on a string that starts a word. *)
Lemma split_word_start c s :
  isspace c = false →
  (split (c :: s) = [c] :: split s
   ∧ (s = [] ∨ ∃ y s', s = y :: s' ∧ isspace y = true))
  ∨ (∃ y s' t ts, s = y :: s' ∧ isspace y = false
       ∧ split s = t :: ts ∧ split (c :: s) = (c :: t) :: ts).
Proof.
  intros Hc. destruct s as [|y s'].
  - left. simpl. rewrite Hc. auto.
  - destruct (isspace y) eqn:Hy.
    + left. split; [|right; eauto].
      change (split (c :: y :: s')) with
        (if isspace c then split (y :: s')
         else if isspace y then [c] :: split (y :: s')
              else match split (y :: s') with
                   | t :: ts => (c :: t) :: ts
                   | [] => [[c]]
                   end).
      by rewrite Hc, Hy.
    + right.
      destruct (split (y :: s')) as [|t ts] eqn:E.
      { apply split_nil_inv in E. inversion E; congruence. }
      exists y, s', t, ts. repeat split; [done..|].
      change (split (c :: y :: s')) with
        (if isspace c then split (y :: s')
         else if isspace y then [c] :: split (y :: s')
              else match split (y :: s') with
                   | t :: ts => (c :: t) :: ts
                   | [] => [[c]]
                   end).
      by rewrite Hc, Hy, E.
Qed.

Lemma split_words s : Forall is_word (split s).
Proof.
  induction s as [|c s IH]; [constructor|].
  destruct (isspace c) eqn:Hc.
  - by rewrite split_space.
  - destruct (split_word_start c s Hc)
      as [[-> _]|(y & s' & t & ts & _ & _ & E & ->)].
    + constructor; [|done]. split; [done|]. by constructor.
    + rewrite E in IH. inversion IH as [|? ? [Ht1 Ht2] Hts]; subst.
      constructor; [|done]. split; [done|]. by constructor.
Qed.

(** [split] sees a string through its words only. *)
Lemma split_word_app t r :
  is_word t → (r = [] ∨ ∃ y r', r = y :: r' ∧ isspace y = true) →
  split (t ++ r) = t :: split r.
Proof.
  intros [Hne Ht] Hr. induction Ht as [|c t Hc Ht IH]; [done|].
  destruct t as [|c' t'].
  - simpl app.
    destruct (split_word_start c r Hc)
      as [[-> _]|(y & s' & ? & ? & -> & Hy & _)]; [done|].
    destruct Hr as [|(? & ? & [= <- <-] & ?)]; congruence.
  - specialize (IH ltac:(done)).
    rewrite <- app_comm_cons.
    destruct (split_word_start c ((c' :: t') ++ r) Hc)
      as [[_ [H|(y & s' & H & Hy)]]|(y & s' & t & ts & _ & _ & E & ->)].
    + done.
    + injection H as <- _. inversion Ht; congruence.
    + rewrite IH in E. by injection E as <- <-.
Qed.

Lemma split_cons_word c s :
  isspace c = false →
  split (c :: s) =
    if starts_word s
    then match split s with
         | t :: ts => (c :: t) :: ts
         | [] => [[c]]
         end
    else [c] :: split s.
Proof.
  intros Hc.
  destruct (split_word_start c s Hc)
    as [[-> [->|(y & s' & -> & Hy)]]|(y & s' & t & ts & -> & Hy & E & ->)];
    simpl starts_word.
  - done.
  - by rewrite Hy.
  - by rewrite Hy, E.
Qed.

Lemma split_starts_word s : starts_word s = true → split s ≠ [].
Proof.
  destruct s as [|y s]; [done|]. simpl starts_word.
  intros Hy%negb_true_iff E. apply split_nil_inv in E.
  inversion E; congruence.
Qed.

Lemma split_app_space s ws :
  Forall (λ x, isspace x = true) ws → split (s ++ ws) = split s.
Proof.
  intros Hws. induction s as [|c s IH].
  - simpl. by apply split_all_space.
  - rewrite <- app_comm_cons. destruct (isspace c) eqn:Hc.
    + by rewrite !split_space.
    + rewrite !split_cons_word, IH by done.
      replace (starts_word (s ++ ws)) with (starts_word s); [done|].
      destruct s as [|y s]; [|done]. simpl.
      destruct Hws as [|y ws Hy _]; [done|]. simpl. by rewrite Hy.
Qed.

Lemma lstrip_spec s :
  ∃ ws, s = ws ++ lstrip s ∧ Forall (λ x, isspace x = true) ws.
Proof.
  induction s as [|c s (ws & E & Hws)]; [by exists []|].
  simpl. destruct (isspace c) eqn:Hc.
  - exists (c :: ws). split; [by rewrite <- app_comm_cons, <- E|by constructor].
  - by exists [].
Qed.

Lemma lstrip_all_space s : Forall (λ x, isspace x = true) s → lstrip s = [].
Proof. induction 1 as [|x s Hx _ IH]; [done|]. simpl. by rewrite Hx. Qed.

Lemma lstrip_starts_word s :
  starts_word s = true → lstrip s = s.
Proof.
  destruct s as [|y s]; [done|]. simpl. intros ->%negb_true_iff. done.
Qed.

Lemma rstrip_spec s :
  ∃ ws, s = rstrip s ++ ws ∧ Forall (λ x, isspace x = true) ws.
Proof.
  unfold rstrip. destruct (lstrip_spec (reverse s)) as (ws & E & Hws).
  exists (reverse ws). split.
  - rewrite <- reverse_app, <- E. by rewrite reverse_involutive.
  - by apply Forall_reverse.
Qed.

Lemma split_lstrip s : split (lstrip s) = split s.
Proof.
  induction s as [|c s IH]; [done|]. simpl lstrip.
  destruct (isspace c) eqn:Hc; [|done]. by rewrite split_space.
Qed.

Lemma split_rstrip s : split (rstrip s) = split s.
Proof.
  destruct (rstrip_spec s) as (ws & E & Hws).
  rewrite E at 2. by rewrite split_app_space.
Qed.

Lemma split_strip s : split (strip s) = split s.
Proof. unfold strip. by rewrite split_lstrip, split_rstrip. Qed.

Lemma strip_no_words s : split s = [] → strip s = [].
Proof.
  intros H%split_nil_inv. unfold strip, rstrip.
  rewrite (lstrip_all_space (reverse s)) by by apply Forall_reverse.
  done.
Qed.

Lemma split_join_words ws :
  Forall is_word ws → split (join (py " ") ws) = ws.
Proof.
  induction 1 as [|t ws Ht Hws IH]; [done|].
  destruct ws as [|t2 ws].
  - simpl. rewrite <- (app_nil_r t) at 1. rewrite split_word_app; auto.
  - change (join (py " ") (t :: t2 :: ws))
      with (t ++ 32 :: join (py " ") (t2 :: ws)).
    rewrite split_word_app; [|done|right; eauto].
    by rewrite split_space, IH.
Qed.

Lemma split_normalized s : split (join (py " ") (split (strip s))) = split s.
Proof. rewrite split_join_words by apply split_words. apply split_strip. Qed.

Lemma has_char_split c s :
  isspace c = false → has_char c s = existsb (has_char c) (split s).
Proof.
  intros Hc. induction s as [|x s IH]; [done|].
  rewrite has_char_cons. destruct (isspace x) eqn:Hx.
  - rewrite split_space by done. rewrite <- IH.
    replace (x =? c) with false; [done|].
    symmetry. apply N.eqb_neq. congruence.
  - rewrite split_cons_word by done.
    destruct (starts_word s) eqn:Hs.
    + destruct (split s) as [|t ts] eqn:E.
      { by apply split_starts_word in Hs. }
      simpl in *. rewrite has_char_cons, IH. by rewrite orb_assoc.
    + simpl. by rewrite has_char_cons, has_char_nil, orb_false_r, IH.
Qed.

Lemma split_after_last c s :
  isspace c = false →
  split (after_last c s) = words_after_last c (split s).
Proof.
  intros Hc. induction s as [|x s IH]; [done|].
  destruct (isspace x) eqn:Hx.
  - assert ((x =? c) = false) as Hxc by (apply N.eqb_neq; congruence).
    rewrite (split_space x) by done.
    destruct (has_char c s) eqn:Hcs.
    + by rewrite after_last_cons_later.
    + rewrite after_last_absent
        by by rewrite has_char_cons, Hxc, Hcs.
      rewrite split_space by done.
      rewrite <- IH, after_last_absent; done.
  - rewrite (split_cons_word x) by done.
    pose proof (has_char_split c s Hc) as Hs.
    destruct (starts_word s) eqn:Hsw.
    + destruct (split s) as [|t ts] eqn:E.
      { by apply split_starts_word in Hsw. }
      pose proof (split_words s) as Hw. rewrite E in Hw.
      inversion Hw as [|? ? [Htne _] _]; subst.
      simpl existsb in Hs. simpl words_after_last in *.
      destruct (existsb (has_char c) ts) eqn:Hts.
      * rewrite orb_true_r in Hs.
        rewrite after_last_cons_later by done. done.
      * rewrite orb_false_r in Hs. rewrite has_char_cons.
        destruct (has_char c t) eqn:Ht.
        -- rewrite orb_true_r, !after_last_cons_later by done. done.
        -- rewrite orb_false_r. simpl after_last. rewrite Hs, ?Ht.
           destruct (x =? c) eqn:Hxc.
           ++ rewrite E. by destruct t.
           ++ rewrite split_cons_word, Hsw, E by done. done.
    + simpl words_after_last.
      destruct (existsb (has_char c) (split s)) eqn:Hts.
      * rewrite after_last_cons_later by done. done.
      * simpl after_last. rewrite Hs.
        rewrite has_char_cons, has_char_nil, orb_false_r.
        destruct (x =? c) eqn:Hxc; [done|].
        by rewrite split_cons_word, Hsw by done.
Qed.

Lemma has_char_normalized c s :
  isspace c = false →
  has_char c (join (py " ") (split (strip s))) = has_char c s.
Proof.
  intros Hc.
  by rewrite (has_char_split c s), (has_char_split c (join _ _)),
    split_normalized.
Qed.

Lemma last_word_of_segment c s :
  isspace c = false →
  let segment := strip (after_last c (join (py " ") (split (strip s)))) in
  default segment (last (split segment)) = last_token (after_last c s).
Proof.
  intros Hc segment. unfold last_token.
  assert (split segment = split (after_last c s)) as E.
  { unfold segment.
    by rewrite split_strip, !split_after_last, split_normalized. }
  rewrite <- E. destruct (last (split segment)) eqn:E'; [done|].
  apply last_None in E'. simpl. unfold segment. apply strip_no_words.
  by rewrite <- split_strip.
Qed.

(** *** What the standard output can encode *)

Lemma encodable_spec os s :
  encodable os s = true ↔ ∀ c, c ∈ s → writes (os_stdout_errors os) c = true.
Proof.
  unfold encodable. rewrite forallb_forall. split.
  - intros H c Hc. apply H. by apply list_elem_of_In.
  - intros H c Hc. apply H. by apply list_elem_of_In.
Qed.

Lemma encodable_app os a b :
  encodable os (a ++ b) = encodable os a && encodable os b.
Proof. apply forallb_app. Qed.

Lemma encodable_incl os a b :
  (∀ c, c ∈ a → c ∈ b) → encodable os b = true → encodable os a = true.
Proof. rewrite !encodable_spec. auto. Qed.

Lemma writes_no_surrogate errors c :
  is_surrogate c = false → writes errors c = true.
Proof. unfold writes. by intros ->. Qed.

Lemma isspace_no_surrogate c : isspace c = true → is_surrogate c = false.
Proof.
  unfold isspace, is_surrogate. intros H.
  apply andb_false_iff. rewrite !N.leb_gt.
  rewrite !orb_true_iff, !andb_true_iff, !N.leb_le, !N.eqb_eq in H. lia.
Qed.

Lemma writes_space errors c : isspace c = true → writes errors c = true.
Proof. intros H. by apply writes_no_surrogate, isspace_no_surrogate. Qed.

Lemma encodable_lstrip os s : encodable os (lstrip s) = encodable os s.
Proof.
  induction s as [|c s IH]; [done|]. simpl.
  destruct (isspace c) eqn:Hc; [|done].
  by rewrite IH, (writes_space _ c Hc).
Qed.

Lemma encodable_reverse os s : encodable os (reverse s) = encodable os s.
Proof.
  apply eq_true_iff_eq. rewrite !encodable_spec.
  by setoid_rewrite elem_of_reverse.
Qed.

Lemma encodable_strip os s : encodable os (strip s) = encodable os s.
Proof.
  unfold strip, rstrip.
  by rewrite encodable_lstrip, encodable_reverse, encodable_lstrip,
    encodable_reverse.
Qed.

Lemma join_chars sep ws c :
  c ∈ join sep ws → c ∈ sep ∨ ∃ t, t ∈ ws ∧ c ∈ t.
Proof.
  induction ws as [|t ws IH]; [by intros ?%elem_of_nil|].
  destruct ws as [|t' ws].
  - simpl. intros H. right. exists t. split; [by left|done].
  - change (join sep (t :: t' :: ws)) with (t ++ sep ++ join sep (t' :: ws)).
    rewrite !elem_of_app. intros [H|[H|H]].
    + right. exists t. split; [by left|done].
    + by left.
    + destruct (IH H) as [?|(t0 & ? & ?)]; [by left|].
      right. exists t0. split; [by right|done].
Qed.

Lemma split_chars s t c : t ∈ split s → c ∈ t → c ∈ s.
Proof.
  revert t. induction s as [|x s IH]; intros t Ht Hc.
  { by apply elem_of_nil in Ht. }
  destruct (isspace x) eqn:Hx.
  - rewrite split_space in Ht by done. right. by eapply IH.
  - rewrite split_cons_word in Ht by done.
    destruct (starts_word s).
    + destruct (split s) as [|t' ts] eqn:E.
      * apply list_elem_of_singleton in Ht as ->.
        apply list_elem_of_singleton in Hc as ->. by left.
      * apply elem_of_cons in Ht as [->|Ht].
        -- apply elem_of_cons in Hc as [->|Hc]; [by left|].
           right. eapply IH; [|done]. by left.
        -- right. eapply IH; [|done]. by right.
    + apply elem_of_cons in Ht as [->|Ht].
      * apply list_elem_of_singleton in Hc as ->. by left.
      * right. by eapply IH.
Qed.

Lemma after_last_suffix c s : ∃ pre, s = pre ++ after_last c s.
Proof.
  induction s as [|x s [pre IH]]; [by exists []|]. simpl.
  destruct (has_char c s).
  - exists (x :: pre). by rewrite <- app_comm_cons, <- IH.
  - destruct (x =? c); [by exists [x]|by exists []].
Qed.

Lemma encodable_normalized os s :
  encodable os s = true → encodable os (join (py " ") (split s)) = true.
Proof.
  rewrite !encodable_spec. intros H c [Hc|(t & Ht & Hc)]%join_chars.
  - apply list_elem_of_singleton in Hc as ->. by apply writes_space.
  - apply H. by eapply split_chars.
Qed.

Lemma encodable_after_last os c s :
  encodable os s = true → encodable os (after_last c s) = true.
Proof.
  destruct (after_last_suffix c s) as [pre E]. rewrite E at 1.
  rewrite encodable_app. by intros [_ ?]%andb_true_iff.
Qed.

Lemma encodable_last_word os s :
  encodable os s = true →
  encodable os (default s (last (split s))) = true.
Proof.
  intros H. destruct (last (split s)) as [t|] eqn:E; [|done].
  apply last_Some_elem_of in E. simpl.
  eapply encodable_incl; [|exact H]. intros c. by apply split_chars.
Qed.

Ltac bool_to_prop :=
  repeat match goal with
    | H : _ && _ = true |- _ => apply andb_true_iff in H as [? ?]
    | H : negb _ = true |- _ => apply negb_true_iff in H
    | H : _ && _ = false |- _ => apply andb_false_iff in H as [?|?]
    | H : (_ <=? _) = true |- _ => apply N.leb_le in H
    | H : (_ <=? _) = false |- _ => apply N.leb_gt in H
    | H : (_ <? _) = true |- _ => apply N.ltb_lt in H
    | H : (_ <? _) = false |- _ => apply N.ltb_ge in H
    | H : (_ =? _) = true |- _ => apply N.eqb_eq in H
    | H : (_ =? _) = false |- _ => apply N.eqb_neq in H
    end.

Lemma not_surrogate c : c < 55296 ∨ 57343 < c → is_surrogate c = false.
Proof.
  intros H. unfold is_surrogate. apply andb_false_iff.
  rewrite !N.leb_gt. lia.
Qed.

Lemma utf8_decode_no_surrogate bs s :
  utf8_decode bs = Some s → Forall (λ c, is_surrogate c = false) s.
Proof.
  remember (length bs) as n eqn:Hn. revert bs s Hn.
  induction n as [n IH] using lt_wf_ind. intros bs s -> Hs.
  assert (∀ r s', (length r < length bs)%nat → utf8_decode r = Some s' →
                  Forall (λ c, is_surrogate c = false) s') as Hrec.
  { intros r s' Hlt. by apply (IH (length r)). }
  clear IH.
  destruct bs as [|b0 r0]; [by injection Hs as <-|].
  cbn [utf8_decode] in Hs.
  destruct (b0 <? 128) eqn:H0.
  { apply fmap_Some in Hs as (s' & Hs' & ->). constructor.
    - bool_to_prop. apply not_surrogate. lia.
    - apply (Hrec r0); [simpl; lia|done]. }
  destruct r0 as [|b1 r1]; [done|].
  destruct ((194 <=? b0) && (b0 <=? 223)) eqn:H2.
  { destruct (is_cont b1) eqn:C1; [|done]. unfold is_cont in C1.
    apply fmap_Some in Hs as (s' & Hs' & ->). constructor.
    - bool_to_prop. apply not_surrogate. lia.
    - apply (Hrec r1); [simpl; lia|done]. }
  destruct r1 as [|b2 r2]; [done|].
  destruct ((224 <=? b0) && (b0 <=? 239)) eqn:H3.
  { destruct (is_cont b1 && is_cont b2 && negb ((b0 =? 224) && (b1 <? 160))
              && negb ((b0 =? 237) && (159 <? b1))) eqn:C; [|done].
    unfold is_cont in C.
    apply fmap_Some in Hs as (s' & Hs' & ->). constructor.
    - clear Hrec Hs' H2. bool_to_prop; apply not_surrogate; lia.
    - apply (Hrec r2); [simpl; lia|done]. }
  destruct r2 as [|b3 r3]; [done|].
  match type of Hs with (if ?c then _ else _) = _ => destruct c eqn:C end;
    [|done].
  unfold is_cont in C.
  apply fmap_Some in Hs as (s' & Hs' & ->). constructor.
  - clear Hrec Hs' H2 H3. bool_to_prop; apply not_surrogate; lia.
  - apply (Hrec r3); [simpl; lia|done].
Qed.

Lemma encodable_no_surrogate os s :
  Forall (λ c, is_surrogate c = false) s → encodable os s = true.
Proof.
  intros H. apply encodable_spec. intros c Hc.
  rewrite Forall_forall in H. by apply writes_no_surrogate, H.
Qed.

Lemma encodable_decoded os bs s :
  utf8_decode bs = Some s → encodable os s = true.
Proof. intros H. by eapply encodable_no_surrogate, utf8_decode_no_surrogate. Qed.

(** *** The hint of a title, as the specification words it *)

Lemma after_last_no_char c s : has_char c (after_last c s) = false.
Proof.
  induction s as [|x s IH]; [done|]. simpl.
  destruct (has_char c s) eqn:Hs; [done|].
  destruct (x =? c) eqn:Hx; [done|].
  by rewrite has_char_cons, Hx, Hs.
Qed.

Lemma has_char_not_elem_of c s : c ∉ s → has_char c s = false.
Proof.
  intros H. apply not_true_iff_false. by rewrite has_char_elem_of.
Qed.

Lemma after_last_final c before after :
  c ∉ after → after_last c (before ++ c :: after) = after.
Proof.
  intros Hc. induction before as [|x before IH]; simpl.
  - by rewrite (has_char_not_elem_of _ _ Hc), N.eqb_refl.
  - rewrite (proj2 (has_char_elem_of c (before ++ c :: after))); [done|].
    apply elem_of_app. right. by left.
Qed.

Lemma split_blank_app g s : blank g → split (g ++ s) = split s.
Proof.
  induction 1 as [|c g Hc _ IH]; [done|].
  by rewrite <- app_comm_cons, split_space.
Qed.

Lemma split_app_ends_blank a r :
  ends_blank a → split (a ++ r) = split a ++ split r.
Proof.
  intros [->|(a' & c & -> & Hc)]; [done|].
  induction a' as [|x a' IH].
  - simpl app. rewrite split_space by done. simpl. by rewrite Hc.
  - rewrite <- !app_comm_cons. destruct (isspace x) eqn:Hx.
    + by rewrite !split_space.
    + rewrite !split_cons_word, IH by done.
      replace (starts_word ((a' ++ [c]) ++ r)) with (starts_word (a' ++ [c]))
        by by destruct a'.
      destruct (starts_word (a' ++ [c])) eqn:Hs; [|done].
      apply split_starts_word in Hs.
      by destruct (split (a' ++ [c])).
Qed.

Lemma tokens_of_split s ws : tokens_of s ws → split s = ws.
Proof.
  induction 1 as [g Hg|g t r ts Hg Ht Hr _ IH].
  - by apply split_all_space.
  - by rewrite split_blank_app, split_word_app, IH.
Qed.

Lemma last_token_of_last_token s tok :
  last_token_of s tok → last_token s = tok.
Proof.
  unfold last_token. intros [s' Hs|a t b Ha Ht Hb].
  - by rewrite split_all_space.
  - rewrite split_app_ends_blank, split_word_app, (split_all_space b); try done.
    + by rewrite last_snoc.
    + destruct Hb as [|c b Hc _]; [by left|right; by exists c, b].
Qed.

Lemma chosen_separator_first_dash title sep :
  chosen_separator title sep → first_dash title = Some sep.
Proof.
  unfold first_dash, DASHES. simpl.
  intros [H1|H1 H2|H1 H2 H3].
  - by rewrite (proj2 (has_char_elem_of _ _) H1).
  - by rewrite (has_char_not_elem_of _ _ H1),
      (proj2 (has_char_elem_of _ _) H2).
  - by rewrite (has_char_not_elem_of _ _ H1), (has_char_not_elem_of _ _ H2),
      (proj2 (has_char_elem_of _ _) H3).
Qed.

Lemma spaced_join ws r : spaced ws r → join (py " ") ws = r.
Proof.
  induction 1 as [|t|t ts r Hts _ IH]; [done..|].
  destruct ts as [|t' ts]; [done|].
  change (join (py " ") (t :: t' :: ts))
    with (t ++ 32 :: join (py " ") (t' :: ts)).
  by rewrite IH.
Qed.

Lemma spaced_total ws : spaced ws (join (py " ") ws).
Proof.
  induction ws as [|t ws IH]; [constructor|].
  destruct ws as [|t' ws]; [constructor|].
  change (join (py " ") (t :: t' :: ws))
    with (t ++ 32 :: join (py " ") (t' :: ws)).
  by constructor.
Qed.

Lemma normalized_hint title hint :
  normalized title hint →
  match first_dash title with
  | Some sep => last_token (after_last sep title)
  | None => join (py " ") (split title)
  end = hint.
Proof.
  intros [sep before after tok Hsep E Hlast Htok|ws r H1 H2 H3 Hws Hr].
  - rewrite (chosen_separator_first_dash _ _ Hsep).
    rewrite E at 1. rewrite after_last_final by done.
    by apply last_token_of_last_token.
  - unfold first_dash, DASHES. simpl.
    rewrite (has_char_not_elem_of _ _ H1), (has_char_not_elem_of _ _ H2),
      (has_char_not_elem_of _ _ H3).
    rewrite (tokens_of_split _ _ Hws). by apply spaced_join.
Qed.

(** Every text has its tokens, and every title has a hint. *)
Lemma tokens_of_space c s ws :
  isspace c = true → tokens_of s ws → tokens_of (c :: s) ws.
Proof.
  intros Hc [g Hg|g t r ts Hg Ht Hr Hts].
  - constructor. by constructor.
  - rewrite app_comm_cons. constructor; try done. by constructor.
Qed.

Lemma tokens_of_total s : tokens_of s (split s).
Proof.
  induction s as [|c s IH]; [by do 2 constructor|].
  destruct (isspace c) eqn:Hc.
  - rewrite split_space by done. by apply tokens_of_space.
  - rewrite split_cons_word by done.
    destruct (starts_word s) eqn:Hs.
    + pose proof (split_starts_word s Hs) as Hne.
      inversion IH as [g Hg E1 E2|g t r ts Hg Ht Hr Hts E1 E2].
      { by rewrite <- E2 in Hne. }
      destruct Hg as [|y g Hy _].
      * apply (tokens_cons [] (c :: t) r ts); try done; [by constructor|].
        destruct Ht as [_ Ht]. split; [done|by constructor].
      * rewrite <- E1 in Hs. simpl in Hs. by rewrite Hy in Hs.
    + apply (tokens_cons [] [c] s (split s)); try done.
      * by constructor.
      * split; [done|]. by constructor.
      * destruct s as [|y s]; [by left|]. right. exists y, s.
        split; [done|]. simpl in Hs. by destruct (isspace y).
Qed.

Lemma blank_ends_blank g : blank g → ends_blank g.
Proof.
  intros Hg. destruct g as [|c g] using rev_ind; [by left|].
  right. exists g, c. split; [done|].
  apply Forall_app in Hg as [_ Hc]. by inversion Hc.
Qed.

Lemma tokens_of_last s l :
  tokens_of s l → ∀ ws tok, l = ws ++ [tok] → last_token_of s tok.
Proof.
  induction 1 as [g Hg|g t r ts Hg Ht Hr Hts IH]; intros ws tok E.
  { by destruct ws. }
  destruct ws as [|t' ws]; simplify_eq/=.
  - inversion Hts; subst. constructor; [by apply blank_ends_blank|done..].
  - specialize (IH ws tok eq_refl).
    inversion IH as [s Hs E1 E2|a tok' b Ha Htok Hb E1 E2].
    { subst. apply tokens_of_split in Hts.
      rewrite split_all_space in Hts by done. by destruct ws. }
    subst. rewrite !app_assoc, <- (app_assoc _ tok b).
    constructor; [|done..].
    destruct Ha as [->|(a' & c & -> & Hc)].
    + destruct Htok as [Hne Htok]. destruct tok as [|y tok]; [done|].
      inversion Htok; subst.
      destruct Hr as [?|(c & r' & ? & Hc)]; simplify_eq/=. congruence.
    + right. eexists _, c. by rewrite !app_assoc.
Qed.

Lemma last_token_of_total s : last_token_of s (last_token s).
Proof.
  unfold last_token.
  destruct (split s) as [|t ts] eqn:E using rev_ind.
  - constructor. by apply split_nil_inv.
  - rewrite last_snoc. simpl.
    apply (tokens_of_last s (ts ++ [t])) with ts; [|done].
    rewrite <- E. apply tokens_of_total.
Qed.

Lemma after_last_split c s :
  has_char c s = true → ∃ before, s = before ++ c :: after_last c s.
Proof.
  induction s as [|x s IH]; [done|].
  rewrite has_char_cons. simpl.
  destruct (has_char c s).
  - destruct IH as [before E]; [done|]. exists (x :: before).
    by rewrite <- app_comm_cons, <- E.
  - rewrite orb_false_r. intros H. rewrite H.
    apply N.eqb_eq in H as ->. by exists [].
Qed.

Lemma normalized_total title : ∃ hint, normalized title hint.
Proof.
  assert (∀ sep, chosen_separator title sep → ∃ hint, normalized title hint)
    as Hsep.
  { intros sep Hsep. exists (last_token (after_last sep title)).
    assert (sep ∈ title) as Hin by by destruct Hsep.
    apply has_char_elem_of, after_last_split in Hin as [before E].
    apply (normalized_after_separator title sep before
             (after_last sep title)); try done.
    - rewrite <- has_char_elem_of. by rewrite after_last_no_char.
    - apply last_token_of_total. }
  destruct (decide (8212 ∈ title)) as [H1|H1].
  { apply (Hsep 8212). by constructor. }
  destruct (decide (8211 ∈ title)) as [H2|H2].
  { apply (Hsep 8211). by constructor. }
  destruct (decide (45 ∈ title)) as [H3|H3].
  { apply (Hsep 45). by constructor. }
  exists (join (py " ") (split title)).
  apply (normalized_whole_title title (split title)); try done.
  - apply tokens_of_total.
  - apply spaced_total.
Qed.

(** ** The normaliser *)

Lemma encodable_found_dash os sep name :
  encodable os name = true →
  let segment := strip (after_last sep name) in
  encodable os (segment ++ default segment (last (split segment))) = true.
Proof.
  intros Hname segment.
  assert (encodable os segment = true) as Hseg.
  { unfold segment. rewrite encodable_strip. by apply encodable_after_last. }
  rewrite encodable_app, Hseg. by apply encodable_last_word.
Qed.

Lemma run_extract_last_word_after_dash (title : str) (w : World) :
  result_of (extract_last_word_after_dash (Some title)) w =
  if encodable (w_os w) title
  then Ok (match first_dash title with
           | Some sep => last_token (after_last sep title)
           | None => join (py " ") (split title)
           end)
  else Raise UnicodeEncodeError.
Proof.
  unfold extract_last_word_after_dash.
  replace (if truthy (Some title) then default [] (Some title) else [])
    with title by by destruct title.
  cbv zeta.
  pose proof (has_char_normalized 8212 title eq_refl) as H1.
  pose proof (has_char_normalized 8211 title eq_refl) as H2.
  pose proof (has_char_normalized 45 title eq_refl) as H3.
  pose proof (last_word_of_segment 8212 title eq_refl) as L1.
  pose proof (last_word_of_segment 8211 title eq_refl) as L2.
  pose proof (last_word_of_segment 45 title eq_refl) as L3.
  cbv zeta in L1, L2, L3.
  set (name := join (py " ") (split (strip title))) in *.
  unfold result_of.
  destruct (encodable (w_os w) title) eqn:He.
  - assert (encodable (w_os w) (strip title) = true) as Ho
      by by rewrite encodable_strip.
    assert (encodable (w_os w) name = true) as Hn
      by by apply encodable_normalized.
    erewrite run_bind
      by (apply print_ok; simpl; by rewrite encodable_app, Ho, Hn).
    pose proof (encodable_found_dash (w_os w) 8212 name Hn) as E1.
    pose proof (encodable_found_dash (w_os w) 8211 name Hn) as E2.
    pose proof (encodable_found_dash (w_os w) 45 name Hn) as E3.
    cbv zeta in E1, E2, E3.
    unfold first_dash, DASHES, mbind, M_bind, mret, M_ret, print.
    simpl.
    unfold mbind, M_bind, mret, M_ret. simpl.
    rewrite H1, H2, H3.
    destruct (has_char 8212 title); simpl; [by rewrite E1, L1|].
    destruct (has_char 8211 title); simpl; [by rewrite E2, L2|].
    destruct (has_char 45 title); simpl; [by rewrite E3, L3|].
    unfold name. by rewrite split_strip.
  - erewrite run_bind_raise; [done|].
    apply print_fails. simpl.
    by rewrite encodable_app, encodable_strip, He.
Qed.

(** C4: [extract_last_word_after_dash] returns the hint the specification
    describes, for every title the standard output can encode (a title
    decoded from the window list is one). For a title with a separator,
    the separator used is the em dash if the title has one, else the en
    dash if it has one, else the hyphen; the hint is the last whitespace
    token of what follows the last occurrence of that separator (the
    empty string when nothing but whitespace follows). For a title with
    none of the three, the hint is the tokens of the title with one space
    between them. The hint is returned, and it is the only text that fits
    the description. So "report.txt - Text Editor" gives "Editor", "htop"
    gives "htop", and "notes.txt - gedit-3" gives "3". *)
Theorem extract_last_word_after_dash_spec (w : World) :
  (∀ title,
     encodable (w_os w) title = true →
     ∃ hint,
       result_of (extract_last_word_after_dash (Some title)) w = Ok hint
       ∧ normalized title hint)
  ∧ (∀ title hint,
       encodable (w_os w) title = true →
       normalized title hint →
       result_of (extract_last_word_after_dash (Some title)) w = Ok hint)
  ∧ result_of (extract_last_word_after_dash
                 (Some (py "report.txt - Text Editor"))) w
    = Ok (py "Editor")
  ∧ result_of (extract_last_word_after_dash (Some (py "htop"))) w
    = Ok (py "htop")
  ∧ result_of (extract_last_word_after_dash
                 (Some (py "notes.txt - gedit-3"))) w
    = Ok (py "3").
Proof.
  assert (∀ title hint,
            encodable (w_os w) title = true →
            normalized title hint →
            result_of (extract_last_word_after_dash (Some title)) w
            = Ok hint) as Hspec.
  { intros title hint He Hn.
    by rewrite run_extract_last_word_after_dash, He, (normalized_hint _ _ Hn). }
  split_and!.
  - intros title He. destruct (normalized_total title) as [hint Hn].
    exists hint. split; [by apply Hspec|done].
  - exact Hspec.
  - by rewrite run_extract_last_word_after_dash.
  - by rewrite run_extract_last_word_after_dash.
  - by rewrite run_extract_last_word_after_dash.
Qed.

(** ** Running the monad *)

Lemma run_for_return_pure {X R} (f : X → option R) body (xs : list X) w :
  (∀ x, x ∈ xs → body x w = (Ok (f x), w)) →
  for_return xs body w = (Ok (first_some f xs), w).
Proof.
  induction xs as [|x xs IH]; intros Hb; [done|].
  simpl. rewrite (run_bind _ _ w (f x) w) by (apply Hb; left).
  destruct (f x); [done|]. apply IH. intros y Hy. apply Hb. by right.
Qed.

Lemma first_some_app {X R} (f : X → option R) xs ys :
  first_some f (xs ++ ys) =
  match first_some f xs with
  | Some v => Some v
  | None => first_some f ys
  end.
Proof.
  induction xs as [|x xs IH]; [done|]. simpl. by destruct (f x).
Qed.

Lemma first_some_None {X R} (f : X → option R) xs :
  first_some f xs = None ↔ ∀ x, x ∈ xs → f x = None.
Proof.
  induction xs as [|x xs IH]; simpl.
  - split; [|done]. by intros _ x ?%elem_of_nil.
  - destruct (f x) eqn:E.
    + split; [done|]. intros H. rewrite <- E. apply H. by left.
    + rewrite IH. split.
      * intros H y [->|?]%elem_of_cons; auto.
      * intros H y ?. apply H. by right.
Qed.

Lemma first_some_Some {X R} (f : X → option R) xs v :
  first_some f xs = Some v →
  ∃ pre x post, xs = pre ++ x :: post ∧ f x = Some v
                ∧ ∀ y, y ∈ pre → f y = None.
Proof.
  induction xs as [|x xs IH]; simpl; [done|].
  destruct (f x) eqn:E.
  - intros [= ->]. exists [], x, xs. split_and!; [done..|].
    by intros y ?%elem_of_nil.
  - intros (pre & y & post & -> & Hy & Hpre)%IH.
    exists (x :: pre), y, post. split_and!; [done..|].
    intros z [->|?]%elem_of_cons; auto.
Qed.

(** ** The search paths *)

Lemma run_collect_existing (f : str → str) roots paths w :
  for_each roots (λ base paths,
    there ← path_exists (f base);
    if (there : bool) then mret (paths ++ [f base]) else mret paths) paths w
  = (Ok (paths ++ filter (λ p, os_path_exists (w_os w) p) (f <$> roots)), w).
Proof.
  revert paths. induction roots as [|r roots IH]; intros paths; simpl.
  - by rewrite app_nil_r.
  - unfold mbind at 1, M_bind. unfold mbind at 1, M_bind.
    unfold path_exists, ask.
    rewrite filter_cons.
    destruct (os_path_exists (w_os w) (f r)) eqn:E; simpl.
    + unfold mret, M_ret. rewrite IH. by rewrite <- app_assoc.
    + unfold mret, M_ret. by rewrite IH.
Qed.

(** C5: [get_icon_search_paths] returns, in this order, the theme
    directories under the data roots (the user's root first, then every
    system root in the order of the variable), the hicolor directories
    under the same roots in the same order, and the pixmaps directory
    last, keeping exactly those that exist; every path it returns
    exists. *)
Theorem get_icon_search_paths_order theme w :
  let os := w_os w in
  result_of (get_icon_search_paths theme) w =
    Ok (filter (λ p, os_path_exists os p) (search_path_candidates os theme))
  ∧ ∀ paths, result_of (get_icon_search_paths theme) w = Ok paths →
      Forall (λ p, os_path_exists os p = true) paths.
Proof.
  intros os.
  assert (result_of (get_icon_search_paths theme) w =
    Ok (filter (λ p, os_path_exists os p) (search_path_candidates os theme)))
    as E.
  { unfold get_icon_search_paths, result_of. cbv zeta.
    erewrite run_bind by reflexivity.
    erewrite run_bind by reflexivity.
    erewrite run_bind by reflexivity.
    erewrite run_bind by apply (run_collect_existing (icon_dir theme)).
    erewrite run_bind
      by apply (run_collect_existing (icon_dir (py "hicolor"))).
    erewrite run_bind by reflexivity.
    erewrite run_bind by reflexivity.
    unfold mret, M_ret, fst.
    unfold search_path_candidates, data_roots. fold os.
    rewrite !filter_app, app_nil_l, <- app_assoc. do 3 f_equal.
    rewrite filter_cons, filter_nil.
    destruct (os_path_exists os (py "/usr/share/pixmaps")); simpl;
      [done|by rewrite !app_nil_r]. }
  split; [exact E|].
  intros paths. rewrite E. intros [= <-].
  apply Forall_forall. intros p [Hp _]%list_elem_of_filter.
  by apply Is_true_true.
Qed.

(** ** The icon searcher *)

Lemma run_search_icon icon_name paths w :
  search_icon icon_name paths w
  = (Ok (first_some (match_in_root (w_os w) icon_name) paths), w).
Proof.
  unfold search_icon. apply run_for_return_pure. intros base _.
  erewrite run_bind by reflexivity.
  unfold match_in_root. apply run_for_return_pure.
  intros [[root dirs] files] _.
  unfold match_in_dir. apply run_for_return_pure. intros ext _.
  fold (icon_file icon_name ext). by case_bool_decide.
Qed.

Lemma match_in_root_Some os icon_name base p :
  match_in_root os icon_name base = Some p →
  found_under os icon_name base p.
Proof.
  unfold match_in_root.
  intros (pre & [[root dirs] files] & post & E & H & _)%first_some_Some.
  unfold match_in_dir in H.
  apply first_some_Some in H as (pre' & ext & post' & E' & H & _).
  case_bool_decide; [|done]. injection H as <-.
  exists root, dirs, files, ext. split_and!; [| |done..].
  - rewrite E. apply elem_of_app. right. by left.
  - rewrite E'. apply elem_of_app. right. by left.
Qed.

Lemma match_in_root_None os icon_name base :
  match_in_root os icon_name base = None ↔
  ∀ root dirs files ext,
    (root, dirs, files) ∈ os_walk os base → ext ∈ ICON_EXTS →
    icon_file icon_name ext ∉ files.
Proof.
  unfold match_in_root. rewrite first_some_None. split.
  - intros H root dirs files ext Ht Hext Hin.
    specialize (H _ Ht). unfold match_in_dir in H.
    rewrite first_some_None in H. specialize (H _ Hext).
    by rewrite bool_decide_true in H.
  - intros H [[root dirs] files] Ht. unfold match_in_dir.
    apply first_some_None. intros ext Hext.
    rewrite bool_decide_false; [done|]. by eapply H.
Qed.

(** C3: root order has strict priority over extension order. When no
    search root before [base] holds the icon under any recognised
    extension and [base] holds it under some extension, [search_icon]
    returns a path found under [base], whatever the later roots [post]
    hold (also a match under an extension of higher priority): the result
    is the one of searching [base] alone. *)
Theorem search_icon_root_order icon_name pre base post w :
  (∀ r, r ∈ pre → ¬ root_holds (w_os w) icon_name r) →
  root_holds (w_os w) icon_name base →
  ∃ p, found_under (w_os w) icon_name base p
       ∧ result_of (search_icon icon_name (pre ++ base :: post)) w
         = Ok (Some p)
       ∧ result_of (search_icon icon_name [base]) w = Ok (Some p).
Proof.
  intros Hpre (root0 & dirs0 & files0 & ext0 & Ht0 & Hext0 & Hin0).
  unfold result_of. rewrite !run_search_icon. simpl fst.
  rewrite first_some_app.
  replace (first_some (match_in_root (w_os w) icon_name) pre) with (@None str).
  2:{ symmetry. apply first_some_None. intros r Hr.
      apply match_in_root_None. intros root dirs files ext ? ? ?.
      apply (Hpre r Hr). by exists root, dirs, files, ext. }
  simpl.
  destruct (match_in_root (w_os w) icon_name base) as [p|] eqn:E.
  - exists p. split; [|done]. by apply match_in_root_Some.
  - exfalso. rewrite match_in_root_None in E. by eapply E.
Qed.

Lemma search_icon_root_order_witness :
  ∃ p, found_under os_two_roots (py "htop") (py "/t/first") p
       ∧ result_of (search_icon (py "htop") [py "/t/first"; py "/t/second"])
           (boot os_two_roots) = Ok (Some p)
       ∧ result_of (search_icon (py "htop") [py "/t/first"])
           (boot os_two_roots) = Ok (Some p).
Proof.
  apply (search_icon_root_order (py "htop") [] (py "/t/first")
           [py "/t/second"] (boot os_two_roots)).
  - intros r Hr. by apply elem_of_nil in Hr.
  - exists (py "/t/first/apps"), [], [py "htop.gif"], (py "gif").
    split_and!.
    + vm_compute. apply list_elem_of_further, list_elem_of_here.
    + vm_compute. do 6 apply list_elem_of_further. apply list_elem_of_here.
    + vm_compute. apply list_elem_of_here.
Defined.

(** ** The desktop-entry locator *)

Lemma first_some_find {X R} (P : X → bool) (g : X → R) body xs :
  (∀ x, body x = if P x then Some (g x) else None) →
  first_some body xs = g <$> find P xs.
Proof.
  intros Hb. induction xs as [|x xs IH]; [done|].
  simpl. rewrite Hb. by destruct (P x).
Qed.

Lemma run_find_desktop_file lower name_guess w :
  listable (w_os w) (system_first (w_os w)) →
  find_desktop_file lower name_guess w
  = (Ok (scan_dirs lower (w_os w) (system_first (w_os w)) name_guess), w).
Proof.
  intros Hl. unfold find_desktop_file. cbv zeta.
  erewrite run_bind by reflexivity.
  unfold scan_dirs. apply run_for_return_pure. intros d Hd.
  erewrite run_bind by reflexivity.
  destruct (os_path_exists (w_os w) d) eqn:Hex; [|done].
  cbv beta. change (negb true) with false. cbv iota.
  destruct (Hl d Hd Hex) as [files Hfiles].
  erewrite run_bind; [|unfold listdir; erewrite run_bind by reflexivity;
                       unfold lift; by rewrite Hfiles].
  unfold listing. rewrite Hfiles.
  set (key := remove_spaces (lower name_guess)).
  rewrite <- (first_some_find (descriptor_matches lower key)
                (λ file, path_join d [file])
                (λ file, if negb (endswith file (py ".desktop")) then None
                         else if contains key (remove_spaces (lower file))
                              then Some (path_join d [file]) else None)).
  - apply run_for_return_pure. intros file _.
    destruct (endswith file (py ".desktop")); simpl; [|done].
    by destruct (contains _ _).
  - intros file. unfold descriptor_matches.
    destruct (endswith file (py ".desktop")); simpl; [|done].
    by destruct (contains _ _).
Qed.

Lemma contains_nil hay : contains [] hay = true.
Proof. by destruct hay. Qed.

Lemma find_None_not {X} (P : X → bool) xs :
  find P xs = None ↔ ∀ x, x ∈ xs → P x = false.
Proof.
  induction xs as [|x xs IH]; simpl.
  - split; [|done]. by intros _ x ?%elem_of_nil.
  - destruct (P x) eqn:E.
    + split; [done|]. intros H. specialize (H x (list_elem_of_here _ _)).
      congruence.
    + rewrite IH. split.
      * intros H y [->|?]%elem_of_cons; auto.
      * intros H y ?. apply H. by right.
Qed.

Lemma scan_dirs_None lower os dirs hint :
  scan_dirs lower os dirs hint = None ↔
  ∀ d file, d ∈ dirs → os_path_exists os d = true → file ∈ listing os d →
            descriptor_matches lower (remove_spaces (lower hint)) file = false.
Proof.
  unfold scan_dirs. cbv zeta. rewrite first_some_None. split.
  - intros H d file Hd Hex Hf. specialize (H d Hd). rewrite Hex in H.
    apply fmap_None in H. rewrite find_None_not in H. by apply H.
  - intros H d Hd. destruct (os_path_exists os d) eqn:Hex; [|done].
    apply fmap_None, find_None_not. intros file Hf. by apply (H d file).
Qed.

(** C7, as the code has it: the descriptor directories are scanned in the
    order system-wide, user-local, flatpak exports, snap. When every one of
    them that exists can be listed, [find_desktop_file] returns the path of
    the first file, in listing order, of the first existing directory in
    that order, that ends in '.desktop' and whose lower-cased name without
    spaces contains the lower-cased hint without spaces; it returns absent
    exactly when no existing directory lists such a file. *)
Theorem find_desktop_file_scan lower hint w :
  let os := w_os w in
  listable os (system_first os) →
  result_of (find_desktop_file lower hint) w
  = Ok (scan_dirs lower os (system_first os) hint)
  ∧ (result_of (find_desktop_file lower hint) w = Ok None ↔
     ∀ d file, d ∈ system_first os → os_path_exists os d = true →
               file ∈ listing os d →
               descriptor_matches lower (remove_spaces (lower hint)) file
               = false).
Proof.
  intros os Hl. unfold result_of. rewrite run_find_desktop_file by done.
  simpl fst. split; [done|]. fold os. rewrite <- scan_dirs_None.
  split; [by intros [= ->]|by intros ->].
Qed.

Lemma listable_os1 : listable os1 (system_first os1).
Proof.
  intros d Hd Hex. vm_compute in Hd.
  repeat (apply elem_of_cons in Hd as [->|Hd]);
    [by eexists|by eexists|done|done|by apply elem_of_nil in Hd].
Qed.

Lemma find_desktop_file_scan_witness :
  result_of (find_desktop_file ascii_lower (py "Fire Fox")) (boot os1)
  = Ok (scan_dirs ascii_lower os1 (system_first os1) (py "Fire Fox"))
  ∧ (result_of (find_desktop_file ascii_lower (py "Fire Fox")) (boot os1)
     = Ok None ↔
     ∀ d file, d ∈ system_first os1 → os_path_exists os1 d = true →
               file ∈ listing os1 d →
               descriptor_matches ascii_lower
                 (remove_spaces (ascii_lower (py "Fire Fox"))) file = false).
Proof.
  apply (find_desktop_file_scan ascii_lower (py "Fire Fox") (boot os1)).
  exact listable_os1.
Defined.

(** C7, as stated, fails: with a matching descriptor in both the
    user-local and the system-wide directory, [find_desktop_file] returns
    the system-wide one, not the one a user-local-first scan gives. *)
Lemma find_desktop_file_not_user_local_first :
  listable os1 (system_first os1)
  ∧ scan_dirs ascii_lower os1 (user_local_first os1) (py "Fire Fox")
    = Some (py "/home/u/.local/share/applications/firefox.desktop")
  ∧ result_of (find_desktop_file ascii_lower (py "Fire Fox")) (boot os1)
    = Ok (Some (py "/usr/share/applications/firefox.desktop"))
  ∧ result_of (find_desktop_file ascii_lower (py "Fire Fox")) (boot os1)
    ≠ Ok (scan_dirs ascii_lower os1 (user_local_first os1) (py "Fire Fox")).
Proof.
  split_and!; [exact listable_os1|by vm_compute..|].
  by vm_compute.
Qed.

Lemma first_some_ext {X R} (f g : X → option R) xs :
  (∀ x, f x = g x) → first_some f xs = first_some g xs.
Proof.
  intros H. induction xs as [|x xs IH]; [done|]. simpl. by rewrite H, IH.
Qed.

Lemma find_ext {X} (P Q : X → bool) xs :
  (∀ x, P x = Q x) → find P xs = find Q xs.
Proof.
  intros H. induction xs as [|x xs IH]; [done|]. simpl. by rewrite H, IH.
Qed.

Lemma scan_dirs_empty_key lower os dirs hint :
  remove_spaces (lower hint) = [] →
  scan_dirs lower os dirs hint = in_first_with_descriptor os dirs.
Proof.
  intros Hkey. unfold scan_dirs, in_first_with_descriptor, first_descriptor.
  cbv zeta. rewrite Hkey. apply first_some_ext. intros d.
  destruct (os_path_exists os d); [|done]. f_equal.
  apply find_ext. intros file. unfold descriptor_matches.
  by rewrite contains_nil, andb_true_r.
Qed.

Lemma in_first_with_descriptor_Some os dirs :
  some_descriptor os dirs → is_Some (in_first_with_descriptor os dirs).
Proof.
  intros (d & file & Hd & Hex & Hf & Hsuf).
  destruct (in_first_with_descriptor os dirs) eqn:E; [done|].
  unfold in_first_with_descriptor in E. rewrite first_some_None in E.
  specialize (E d Hd). rewrite Hex in E. unfold first_descriptor in E.
  apply fmap_None in E. rewrite find_None_not in E.
  specialize (E file Hf). congruence.
Qed.

(** C10, as the code has it: when the match key of the hint (lower-cased,
    spaces removed) is empty and every existing descriptor directory can be
    listed, [find_desktop_file] returns the first file ending in '.desktop',
    in listing order, of the first existing descriptor directory that holds
    such a file; so it does not return absent when some descriptor
    directory exists and holds a descriptor file. *)
Theorem find_desktop_file_empty_key lower hint w :
  let os := w_os w in
  remove_spaces (lower hint) = [] →
  listable os (system_first os) →
  result_of (find_desktop_file lower hint) w
  = Ok (in_first_with_descriptor os (system_first os))
  ∧ (some_descriptor os (system_first os) →
     ∃ p, result_of (find_desktop_file lower hint) w = Ok (Some p)).
Proof.
  intros os Hkey Hl. unfold result_of.
  rewrite run_find_desktop_file by done. simpl fst. fold os.
  rewrite scan_dirs_empty_key by done. split; [done|].
  intros [p ->]%in_first_with_descriptor_Some. by exists p.
Qed.

Lemma listable_os_sparse : listable os_sparse (system_first os_sparse).
Proof.
  intros d Hd Hex. vm_compute in Hd.
  repeat (apply elem_of_cons in Hd as [->|Hd]);
    [by eexists|by eexists|done|done|by apply elem_of_nil in Hd].
Qed.

Lemma some_descriptor_os_sparse :
  some_descriptor os_sparse (system_first os_sparse).
Proof.
  exists (py "/home/u/.local/share/applications"), (py "zim.desktop").
  split_and!; [|done|..|done].
  - vm_compute. apply list_elem_of_further, list_elem_of_here.
  - vm_compute. apply list_elem_of_further, list_elem_of_here.
Qed.

Lemma find_desktop_file_empty_key_witness :
  result_of (find_desktop_file ascii_lower (py "  ")) (boot os_sparse)
  = Ok (in_first_with_descriptor os_sparse (system_first os_sparse))
  ∧ (some_descriptor os_sparse (system_first os_sparse) →
     ∃ p, result_of (find_desktop_file ascii_lower (py "  ")) (boot os_sparse)
          = Ok (Some p)).
Proof.
  apply (find_desktop_file_empty_key ascii_lower (py "  ") (boot os_sparse)).
  - reflexivity.
  - exact listable_os_sparse.
Defined.

(** C10, as stated, fails: the first existing descriptor directory may
    hold no descriptor, and the file returned then comes from a later
    directory. *)
Lemma find_desktop_file_not_in_first_existing :
  remove_spaces (ascii_lower (py "  ")) = []
  ∧ some_descriptor os_sparse (system_first os_sparse)
  ∧ find (os_path_exists os_sparse) (system_first os_sparse)
    = Some (py "/usr/share/applications")
  ∧ result_of (find_desktop_file ascii_lower (py "  ")) (boot os_sparse)
    = Ok (Some (py "/home/u/.local/share/applications/zim.desktop"))
  ∧ result_of (find_desktop_file ascii_lower (py "  ")) (boot os_sparse)
    ≠ Ok (in_first_existing os_sparse (system_first os_sparse)).
Proof.
  split_and!; [done|exact some_descriptor_os_sparse|by vm_compute..|].
  by vm_compute.
Qed.

(** ** The theme resolver *)

Lemma get_current_icon_theme_outcomes w :
  result_of get_current_icon_theme w =
  match os_run (w_os w) xfconf_query with
  | NotStarted e => if is_CalledProcessError e then Ok (py "hicolor") else Raise e
  | Exited 0%Z out =>
      match utf8_decode out with
      | Some text => Ok (strip text)
      | None => Raise UnicodeDecodeError
      end
  | Exited _ _ => Ok (py "hicolor")
  end.
Proof.
  unfold get_current_icon_theme, result_of, try_except, check_output, decode.
  unfold mbind, M_bind, ask, raise, mret, M_ret, print. simpl.
  destruct (os_run (w_os w) xfconf_query) as [e|rc out]; simpl.
  - by destruct e.
  - destruct rc; simpl; [|done..].
    destruct (utf8_decode out) as [text|] eqn:E; [|done]. simpl.
    by rewrite encodable_strip, (encodable_decoded _ _ _ E).
Qed.

(** C6 on the code: a non-zero exit of the theme query gives "hicolor",
    but a missing tool and output that is not UTF-8 are not caught: the
    exception reaches the caller. *)
Theorem get_current_icon_theme_uncaught :
  result_of get_current_icon_theme (boot os_xfconf_fails) = Ok (py "hicolor")
  ∧ result_of get_current_icon_theme (boot os_no_xfconf)
    = Raise FileNotFoundError
  ∧ result_of get_current_icon_theme (boot os_xfconf_garbled)
    = Raise UnicodeDecodeError.
Proof. by rewrite !get_current_icon_theme_outcomes. Qed.

(** ** The desktop-entry reader *)

Lemma lstrip_app_word a b :
  starts_word b = true → lstrip (a ++ b) = lstrip a ++ b.
Proof.
  intros Hb. induction a as [|c a IH]; simpl.
  - by apply lstrip_starts_word.
  - by destruct (isspace c).
Qed.

Lemma rstrip_word_app a c b :
  isspace c = false → rstrip (a ++ c :: b) = a ++ c :: rstrip b.
Proof.
  intros Hc. unfold rstrip.
  rewrite reverse_app, reverse_cons, <- app_assoc.
  rewrite lstrip_app_word by (simpl; by rewrite Hc).
  rewrite !reverse_app, reverse_involutive, <- app_assoc. done.
Qed.

Lemma icon_line_value line :
  startswith line (py "Icon=") = true →
  split1 61 (strip line) !! 1%nat = Some (icon_value line).
Proof.
  intros H.
  assert (∃ rest, line = py "Icon=" ++ rest) as [rest ->].
  { change (py "Icon=") with [73; 99; 111; 110; 61] in *.
    do 5 (destruct line as [|? line];
          [simpl in H; by rewrite ?andb_false_r in H|]).
    exists line. simpl in H.
    repeat (apply andb_true_iff in H as [?%N.eqb_eq H]). by subst. }
  unfold icon_value, strip.
  change (py "Icon=" ++ rest) with ([73; 99; 111; 110] ++ 61 :: rest).
  rewrite (rstrip_word_app [73; 99; 111; 110] 61 rest) by done.
  done.
Qed.

Lemma run_icon_lines path lines w :
  result_of (for_return lines (λ line,
     if startswith line (py "Icon=") then
       icon_name ← getitem (split1 61 (strip line)) 1;
       print (DbgDesktopIcon path icon_name);;
       mret (Some icon_name)
     else mret None)) w
  = match find (λ line, startswith line (py "Icon=")) lines with
    | Some line =>
        if encodable (w_os w) (path ++ icon_value line)
        then Ok (Some (icon_value line))
        else Raise UnicodeEncodeError
    | None => Ok None
    end.
Proof.
  induction lines as [|line lines IH]; [done|].
  simpl. rewrite result_of_bind.
  destruct (startswith line (py "Icon=")) eqn:E; [|exact IH].
  unfold result_of, getitem. rewrite (icon_line_value line E).
  unfold mbind, M_bind, mret, M_ret, print. simpl.
  by destruct (encodable (w_os w) (path ++ icon_value line)).
Qed.

Lemma result_of_read_failed path e w w' :
  w_os w' = w_os w →
  result_of (print (DbgReadError path e);; mret None) w'
  = read_failed (w_os w) path.
Proof.
  intros Hos. unfold result_of, read_failed, mbind, M_bind, print. simpl.
  rewrite Hos. by destruct (encodable (w_os w) path).
Qed.

Lemma result_of_for_line_of {R} path (body : str → M (option R)) w :
  result_of (for_line_of path body) w =
  match os_open (w_os w) path with
  | OpenError e => Raise e
  | Opened lines read_error =>
      match result_of (for_return lines body) w, read_error with
      | Ok (Some v), _ => Ok (Some v)
      | Ok None, Some e => Raise e
      | Ok None, None => Ok None
      | Raise e, _ => Raise e
      end
  end.
Proof.
  unfold for_line_of, result_of, mbind, M_bind, ask.
  destruct (os_open (w_os w) path) as [e|lines err]; [done|].
  destruct (for_return lines body w) as [[[v|]|e] w']; try done.
  by destruct err.
Qed.

Lemma run_read_icon_from_desktop desktop_file w :
  result_of (read_icon_from_desktop desktop_file) w =
  match desktop_file with
  | Some ((_ :: _) as path) => declared_icon (w_os w) path
  | _ => Ok None
  end.
Proof.
  destruct desktop_file as [[|c path]|]; [done| |done].
  unfold read_icon_from_desktop, declared_icon.
  set (body := λ line : str, _).
  assert (∀ line, reads_only (body line)) as Hbody
    by (intros line; unfold body; reads).
  rewrite result_of_bind, result_of_try_except.
  destruct (reads_only_for_line_of (c :: path) body Hbody w) as [Hos _].
  rewrite result_of_for_line_of.
  set (w' := world_after (for_line_of (c :: path) body) w) in *.
  assert (∀ e, result_of (print (DbgReadError (c :: path) e);; mret None) w'
               = read_failed (w_os w) (c :: path)) as Hfail
    by (intros e; by apply result_of_read_failed).
  destruct (os_open (w_os w) (c :: path)) as [e|lines err].
  { rewrite Hfail. by destruct (read_failed _ _) as [[?|]|?]. }
  unfold body at 1. rewrite (run_icon_lines (c :: path)). fold body.
  destruct (find _ lines) as [line|].
  - destruct (encodable (w_os w) ((c :: path) ++ icon_value line)); [done|].
    rewrite Hfail. by destruct (read_failed _ _) as [[?|]|?].
  - destruct err as [e|]; [|done].
    rewrite Hfail. by destruct (read_failed _ _) as [[?|]|?].
Qed.

Lemma read_failed_Raise os path e :
  read_failed os path = Raise e →
  e = UnicodeEncodeError ∧ encodable os path = false.
Proof.
  unfold read_failed. destruct (encodable os path); [done|].
  by intros [= <-].
Qed.

Lemma declared_icon_Raise os path e :
  declared_icon os path = Raise e →
  e = UnicodeEncodeError ∧ encodable os path = false.
Proof.
  unfold declared_icon. intros H.
  destruct (os_open os path) as [e'|lines err];
    [by apply read_failed_Raise|].
  destruct (find _ lines) as [line|].
  - destruct (encodable os (path ++ icon_value line)); [done|].
    by apply read_failed_Raise.
  - destruct err; [by apply read_failed_Raise|done].
Qed.

Lemma declared_icon_Some os path v :
  declared_icon os path = Ok (Some v) →
  ∃ lines err line,
    os_open os path = Opened lines err
    ∧ find (λ line, startswith line (py "Icon=")) lines = Some line
    ∧ v = icon_value line.
Proof.
  unfold declared_icon, read_failed. intros H.
  destruct (os_open os path) as [e|lines err];
    [by destruct (encodable os path)|].
  exists lines, err.
  destruct (find _ lines) as [line|].
  - exists line. split_and!; [done..|].
    destruct (encodable os (path ++ icon_value line)); [by injection H|].
    by destruct (encodable os path).
  - destruct err; [|done]. by destruct (encodable os path).
Qed.

(** C8, as the code has it. [read_icon_from_desktop] catches every error
    of opening and reading the file: the one exception that can reach the
    caller is the UnicodeEncodeError of a debug line, for a descriptor
    path that the standard output cannot encode (with an error handler
    that fails, a file name that is not UTF-8); it does when such a file
    cannot be opened. The function returns absent when the descriptor is
    absent or empty; for a path that can be encoded it returns absent
    when the file cannot be opened and when no line starts with "Icon="
    (also when reading fails before such a line), and otherwise what
    follows "Icon=" on the first such line once the line has been
    stripped: the trailing whitespace and the line terminator are
    removed, whitespace right after the '=' is kept. (A value that cannot
    be encoded counts as a failed read; a file decoded with
    errors='ignore' holds none.) *)
Theorem read_icon_from_desktop_value desktop_file w :
  let os := w_os w in
  let result := result_of (read_icon_from_desktop desktop_file) w in
  (∀ e, result = Raise e →
        e = UnicodeEncodeError
        ∧ ∃ path, desktop_file = Some path ∧ encodable os path = false)
  ∧ (truthy desktop_file = false → result = Ok None)
  ∧ (∀ path,
       desktop_file = Some path → path ≠ [] → encodable os path = true →
       match os_open os path with
       | OpenError _ => result = Ok None
       | Opened lines _ =>
           match find (λ line, startswith line (py "Icon=")) lines with
           | Some line =>
               result = Ok (if encodable os (icon_value line)
                            then Some (icon_value line) else None)
           | None => result = Ok None
           end
       end)
  ∧ (∀ path e,
       desktop_file = Some path → encodable os path = false →
       os_open os path = OpenError e →
       result = Raise UnicodeEncodeError).
Proof.
  intros os result. unfold result. rewrite run_read_icon_from_desktop.
  fold os. split_and!.
  - intros e He. destruct desktop_file as [[|c path]|]; try done.
    apply declared_icon_Raise in He as [-> He]. split; [done|].
    by exists (c :: path).
  - by destruct desktop_file as [[|]|].
  - intros path -> Hpath He. destruct path as [|c path]; [done|].
    unfold declared_icon, read_failed.
    rewrite He. destruct (os_open os (c :: path)) as [e|lines err]; [done|].
    destruct (find _ lines) as [line|].
    + rewrite encodable_app, He. simpl.
      by destruct (encodable os (icon_value line)).
    + by destruct err.
  - intros path e -> He Hopen. destruct path as [|c path]; [done|].
    unfold declared_icon, read_failed. by rewrite Hopen, He.
Qed.

(** C8, as stated, fails: the value is trimmed. The descriptor has the
    line "Icon=org.example.App" followed by two spaces; the code returns
    the name without them, which is neither what follows the '=' on the
    line nor on the line without its terminator. *)
Lemma read_icon_from_desktop_trims :
  let path := py "/usr/share/applications/org.example.App.desktop" in
  let line := text_line "Icon=org.example.App  " in
  os_open os1 path = Opened [text_line "[Desktop Entry]"; line] None
  ∧ result_of (read_icon_from_desktop (Some path)) (boot os1)
    = Ok (Some (py "org.example.App"))
  ∧ result_of (read_icon_from_desktop (Some path)) (boot os1)
    ≠ Ok (Some (untrimmed_value (chomp line)))
  ∧ result_of (read_icon_from_desktop (Some path)) (boot os1)
    ≠ Ok (Some (untrimmed_value line)).
Proof. split_and!; by vm_compute. Qed.

(** The error of the debug line on a machine: the descriptor has a file
    name that is not UTF-8 and an "Icon=" line. The line that names the
    path cannot be printed, nor can the message of the handler, whose
    error reaches the caller of [read_icon_from_desktop] and of the
    pipeline. *)
Lemma read_icon_from_desktop_unencodable_path :
  let path := py "/usr/share/applications/caf" ++ [56553] ++ py ".desktop" in
  result_of (find_desktop_file ascii_lower (py "caf")) (boot os_latin1_name)
  = Ok (Some path)
  ∧ result_of (read_icon_from_desktop (Some path)) (boot os_latin1_name)
    = Raise UnicodeEncodeError
  ∧ result_of (resolve ascii_lower (py "caf") (py "caf") [])
      (boot os_latin1_name)
    = Raise UnicodeEncodeError.
Proof. split_and!; by vm_compute. Qed.

(** ** The candidate builder *)

Lemma run_build_icon_candidates lower desktop_file exe_name last_word w icon :
  result_of (read_icon_from_desktop desktop_file) w = Ok icon →
  result_of (build_icon_candidates lower desktop_file exe_name last_word) w
  = Ok (candidates_for lower icon exe_name last_word).
Proof.
  intros H. unfold build_icon_candidates.
  by rewrite (result_of_bind_ok _ _ w icon H).
Qed.

Lemma result_of_build_icon_candidates
    lower desktop_file exe_name last_word w :
  result_of (build_icon_candidates lower desktop_file exe_name last_word) w
  = match result_of (read_icon_from_desktop desktop_file) w with
    | Ok icon => Ok (candidates_for lower icon exe_name last_word)
    | Raise e => Raise e
    end.
Proof.
  destruct (result_of (read_icon_from_desktop desktop_file) w)
    as [icon|e] eqn:E.
  - by apply run_build_icon_candidates.
  - unfold build_icon_candidates. by rewrite result_of_bind, E.
Qed.

Lemma dedup_into_cons seen all_cands c cs :
  dedup_into (seen, all_cands) (c :: cs)
  = dedup_into (if truthy (Some c) && bool_decide (c ∉ seen)
                then ({[c]} ∪ seen, all_cands ++ [c])
                else (seen, all_cands)) cs.
Proof. done. Qed.

Lemma add_words_cons lower seen all_cands t ws :
  add_words lower (seen, all_cands) (t :: ws)
  = add_words lower (if bool_decide (lower t ∉ seen)
                     then ({[lower t]} ∪ seen, all_cands ++ [lower t])
                     else (seen, all_cands)) ws.
Proof. done. Qed.

Lemma cand_inv_empty : cand_inv (∅, []).
Proof.
  split_and!; simpl.
  - constructor.
  - by intros ?%elem_of_nil.
  - intros x. split; [by intros ?%elem_of_empty|by intros ?%elem_of_nil].
Qed.

Lemma cand_inv_add seen all_cands c :
  cand_inv (seen, all_cands) → c ≠ [] → c ∉ seen →
  cand_inv ({[c]} ∪ seen, all_cands ++ [c]).
Proof.
  intros (Hnd & Hne & Hseen) Hc Hnew. simpl in *. split_and!; simpl.
  - apply NoDup_app. split_and!; [done| |apply NoDup_singleton].
    intros x Hx ->%list_elem_of_singleton. apply Hnew. by apply Hseen.
  - intros [?|?%list_elem_of_singleton]%elem_of_app; [done|]. by apply Hc.
  - intros x. rewrite elem_of_union, elem_of_singleton, elem_of_app,
      list_elem_of_singleton, Hseen. tauto.
Qed.

Lemma dedup_into_inv st cs : cand_inv st → cand_inv (dedup_into st cs).
Proof.
  revert st. induction cs as [|c cs IH]; intros [seen all_cands] Hst; [done|].
  rewrite dedup_into_cons.
  destruct c as [|x c']; simpl truthy.
  - by apply IH.
  - rewrite andb_true_l. case_bool_decide; apply IH; [|done].
    by apply cand_inv_add.
Qed.

Lemma add_words_inv lower st ws :
  (∀ t, t ∈ ws → lower t ≠ []) → cand_inv st →
  cand_inv (add_words lower st ws).
Proof.
  revert st. induction ws as [|t ws IH]; intros [seen all_cands] Hws Hst;
    [done|].
  rewrite add_words_cons.
  assert (∀ t', t' ∈ ws → lower t' ≠ []) as Hws'
    by (intros t' ?; apply Hws; by right).
  case_bool_decide; apply IH; [done| |done..].
  apply cand_inv_add; [done| |done]. apply Hws. by left.
Qed.

Lemma candidates_for_inv lower icon exe_name last_word :
  (∀ s, s ≠ [] → lower s ≠ []) →
  NoDup (candidates_for lower icon exe_name last_word)
  ∧ [] ∉ candidates_for lower icon exe_name last_word.
Proof.
  intros Hlower. unfold candidates_for. cbv zeta.
  set (st := dedup_into _ _).
  assert (cand_inv st) as Hst by apply dedup_into_inv, cand_inv_empty.
  destruct (truthy last_word).
  - destruct (add_words_inv lower st (split (default [] last_word)))
      as (? & ? & _); [|done..].
    intros t Ht. apply Hlower.
    pose proof (split_words (default [] last_word)) as Hw.
    rewrite Forall_forall in Hw. by destruct (Hw t Ht).
  - by destruct Hst as (? & ? & _).
Qed.

(** C2: whatever the descriptor, the exec hint and the normalized hint
    are (absent, empty or present), a list that [build_icon_candidates]
    returns has no duplicates and does not hold the empty string; and a
    list is returned whenever the path of the descriptor (if there is
    one) can be written to the standard output. The lower-casing of the
    interpreter enters through the one fact that it maps no non-empty
    string to the empty one. *)
Theorem build_icon_candidates_no_dup_no_empty
    lower desktop_file exe_name last_word w :
  (∀ s, s ≠ [] → lower s ≠ []) →
  let result :=
    result_of (build_icon_candidates lower desktop_file exe_name last_word)
      w in
  (∀ cands, result = Ok cands → NoDup cands ∧ [] ∉ cands)
  ∧ ((∀ path, desktop_file = Some path → encodable (w_os w) path = true) →
     ∃ cands, result = Ok cands ∧ NoDup cands ∧ [] ∉ cands).
Proof.
  intros Hlower result. unfold result.
  rewrite result_of_build_icon_candidates.
  destruct (result_of (read_icon_from_desktop desktop_file) w)
    as [icon|e] eqn:Hicon.
  - split.
    + intros cands [= <-]. by apply candidates_for_inv.
    + intros _. eexists. split; [done|]. by apply candidates_for_inv.
  - split; [done|]. intros Hpath.
    rewrite run_read_icon_from_desktop in Hicon.
    destruct desktop_file as [[|c path]|]; try done.
    apply declared_icon_Raise in Hicon as [_ Hicon].
    by rewrite (Hpath (c :: path) eq_refl) in Hicon.
Qed.

Lemma ascii_lower_not_empty s : s ≠ [] → ascii_lower s ≠ [].
Proof. by destruct s. Qed.

Lemma build_icon_candidates_no_dup_no_empty_witness :
  ∃ cands,
    result_of (build_icon_candidates ascii_lower
                 (Some (py "/usr/share/applications/org.example.App.desktop"))
                 (Some (py "app")) (Some (py "Example App"))) (boot os1)
    = Ok cands
    ∧ NoDup cands ∧ [] ∉ cands.
Proof.
  apply (build_icon_candidates_no_dup_no_empty ascii_lower
           (Some (py "/usr/share/applications/org.example.App.desktop"))
           (Some (py "app")) (Some (py "Example App")) (boot os1)
           ascii_lower_not_empty).
  intros path [= <-]. reflexivity.
Defined.

Lemma base_candidates_not_empty icon exe_name last_word s :
  s ∈ base_candidates icon exe_name last_word → s ≠ [].
Proof.
  unfold base_candidates. cbv zeta. intros Hs ->.
  destruct icon as [[|]|], exe_name as [[|]|], last_word as [[|]|];
    simpl in Hs;
    repeat (apply elem_of_cons in Hs as [Hs|Hs]; [done|]);
    by apply elem_of_nil in Hs.
Qed.

Lemma dedup_into_app st l1 l2 :
  dedup_into st (l1 ++ l2) = dedup_into (dedup_into st l1) l2.
Proof. apply foldl_app. Qed.

Lemma dedup_into_extends st cs :
  ∃ ext, (dedup_into st cs).2 = st.2 ++ ext ∧ ∀ x, x ∈ ext → x ∈ cs.
Proof.
  revert st. induction cs as [|c cs IH]; intros [seen all_cands].
  - exists []. split; [by rewrite app_nil_r|done].
  - rewrite dedup_into_cons.
    destruct (truthy (Some c) && bool_decide (c ∉ seen)).
    + destruct (IH ({[c]} ∪ seen, all_cands ++ [c])) as (ext & -> & Hext).
      exists (c :: ext). simpl. split; [by rewrite <- app_assoc|].
      intros x [->|?]%elem_of_cons; [by left|right; auto].
    + destruct (IH (seen, all_cands)) as (ext & -> & Hext).
      exists ext. split; [done|]. intros x ?. right. auto.
Qed.

Lemma dedup_into_keeps st cs x :
  cand_inv st → x ∈ cs → x ≠ [] → x ∈ (dedup_into st cs).2.
Proof.
  revert st. induction cs as [|c cs IH]; intros [seen all_cands] Hst Hx Hne.
  { by apply elem_of_nil in Hx. }
  rewrite dedup_into_cons.
  apply elem_of_cons in Hx as [<-|Hx].
  - destruct x as [|x0 x']; [done|]. simpl truthy. rewrite andb_true_l.
    case_bool_decide as Hnew.
    + destruct (dedup_into_extends ({[x0 :: x']} ∪ seen,
                                    all_cands ++ [x0 :: x']) cs)
        as (ext & -> & _). simpl. set_solver.
    + destruct (dedup_into_extends (seen, all_cands) cs) as (ext & -> & _).
      simpl. apply elem_of_app. left.
      destruct Hst as (_ & _ & Hseen). apply Hseen.
      done.
  - apply IH; [|done..].
    destruct c as [|c0 c']; simpl truthy; [done|]. rewrite andb_true_l.
    case_bool_decide; [|done]. by apply cand_inv_add.
Qed.

Lemma add_words_extends lower st ws :
  ∃ ext, (add_words lower st ws).2 = st.2 ++ ext.
Proof.
  revert st. induction ws as [|t ws IH]; intros [seen all_cands].
  - exists []. by rewrite app_nil_r.
  - rewrite add_words_cons.
    destruct (bool_decide (lower t ∉ seen)).
    + destruct (IH ({[lower t]} ∪ seen, all_cands ++ [lower t])) as (ext & ->).
      exists (lower t :: ext). simpl. by rewrite <- app_assoc.
    + apply IH.
Qed.

Lemma comes_before_app_r a b l ext :
  comes_before a b l → comes_before a b (l ++ ext).
Proof.
  intros (i & j & Hlt & Hi & Hj). exists i, j.
  split_and!; [done|by apply lookup_app_l_Some..].
Qed.

Lemma comes_before_split a b l1 l2 :
  a ∈ l1 → b ∈ l2 → comes_before a b (l1 ++ l2).
Proof.
  intros [i Hi]%list_elem_of_lookup [j Hj]%list_elem_of_lookup.
  exists i, (length l1 + j)%nat. split_and!.
  - apply lookup_lt_Some in Hi. lia.
  - by apply lookup_app_l_Some.
  - by rewrite lookup_app_r, Nat.add_sub' by lia.
Qed.

Lemma dedup_into_order p a b r :
  a ≠ [] → b ≠ [] → b ≠ a → b ∉ p →
  comes_before a b (dedup_into (∅, []) (p ++ a :: b :: r)).2.
Proof.
  intros Ha Hb Hba Hbp.
  replace (p ++ a :: b :: r) with ((p ++ [a]) ++ b :: r)
    by by rewrite <- app_assoc.
  rewrite dedup_into_app.
  set (st1 := dedup_into (∅, []) (p ++ [a])).
  assert (cand_inv st1) as Hst1 by apply dedup_into_inv, cand_inv_empty.
  assert (a ∈ st1.2) as Ha1.
  { apply dedup_into_keeps; [apply cand_inv_empty| |done].
    apply elem_of_app. right. by left. }
  assert (b ∉ st1.2) as Hb1.
  { destruct (dedup_into_extends (∅, []) (p ++ [a])) as (ext & E & Hext).
    fold st1 in E. rewrite E. simpl.
    intros [?|Hin]%Hext%elem_of_app; [done|].
    by apply list_elem_of_singleton in Hin. }
  pose proof (dedup_into_keeps st1 (b :: r) b Hst1 ltac:(by left) Hb) as Hb2.
  destruct (dedup_into_extends st1 (b :: r)) as (ext & E & _).
  rewrite E in Hb2 |- *.
  apply comes_before_split; [done|].
  apply elem_of_app in Hb2 as [?|?]; done.
Qed.

Lemma derived_variants_acc lower acc cs :
  foldl (λ extra s,
           if negb (truthy (Some s)) then extra
           else
             let s2 := lower s in
             let s3 := remove_spaces s2 in
             let extra :=
               if has_char 46 s2 then extra ++ [after_last 46 s2]
               else extra in
             extra ++ [s2; s3]) acc cs
  = acc ++ derived_variants lower cs.
Proof.
  unfold derived_variants. revert acc.
  induction cs as [|c cs IH]; intros acc; [by rewrite app_nil_r|].
  simpl foldl. rewrite IH. symmetry. rewrite IH. cbv zeta.
  destruct c as [|c0 c']; [done|]. simpl negb. cbv iota.
  destruct (has_char 46 (lower (c0 :: c'))); by rewrite <- ?app_assoc.
Qed.

Lemma derived_variants_app lower l1 l2 :
  derived_variants lower (l1 ++ l2)
  = derived_variants lower l1 ++ derived_variants lower l2.
Proof.
  unfold derived_variants at 1. rewrite foldl_app.
  fold (derived_variants lower l1). apply derived_variants_acc.
Qed.

Lemma derived_variants_dot lower s post :
  s ≠ [] → has_char 46 (lower s) = true →
  derived_variants lower (s :: post)
  = after_last 46 (lower s) :: lower s :: remove_spaces (lower s)
    :: derived_variants lower post.
Proof.
  intros Hs Hdot. unfold derived_variants at 1. simpl foldl.
  rewrite derived_variants_acc. cbv zeta. rewrite Hdot.
  by destruct s.
Qed.

(** C1, as the code has it: for a base entry [s] whose lowercase form
    contains a '.', the post-dot substring is derived just before the
    lowercase form. So when that substring is not empty and the lowercase
    form occurs neither among the base entries nor among the variants of
    the base entries before [s], the candidate list has the post-dot
    substring before the lowercase form. *)
Theorem build_icon_candidates_dot_order
    lower desktop_file exe_name last_word w icon pre s post :
  result_of (read_icon_from_desktop desktop_file) w = Ok icon →
  base_candidates icon exe_name last_word = pre ++ s :: post →
  has_char 46 (lower s) = true →
  after_last 46 (lower s) ≠ [] →
  lower s ∉ base_candidates icon exe_name last_word →
  lower s ∉ derived_variants lower pre →
  ∃ cands,
    result_of (build_icon_candidates lower desktop_file exe_name last_word) w
    = Ok cands
    ∧ comes_before (after_last 46 (lower s)) (lower s) cands.
Proof.
  intros Hicon Hbase Hdot Htail Hnb Hnd.
  eexists. split; [by apply run_build_icon_candidates|].
  unfold candidates_for. cbv zeta.
  assert (s ≠ []) as Hs.
  { apply (base_candidates_not_empty icon exe_name last_word).
    rewrite Hbase. apply elem_of_app. right. by left. }
  set (cs := base_candidates icon exe_name last_word) in *.
  assert (comes_before (after_last 46 (lower s)) (lower s)
            (dedup_into (∅, []) (cs ++ derived_variants lower cs)).2) as Hcb.
  { rewrite Hbase at 2.
    rewrite derived_variants_app, derived_variants_dot by done.
    rewrite app_assoc. apply dedup_into_order.
    - done.
    - intros E. by rewrite E in Hdot.
    - intros E. pose proof (after_last_no_char 46 (lower s)) as H.
      rewrite <- E in H. congruence.
    - intros [?|?]%elem_of_app; done. }
  destruct (truthy last_word); [|done].
  destruct (add_words_extends lower
              (dedup_into (∅, []) (cs ++ derived_variants lower cs))
              (split (default [] last_word))) as [ext ->].
  by apply comes_before_app_r.
Qed.

Lemma build_icon_candidates_dot_order_witness :
  ∃ cands,
    result_of (build_icon_candidates ascii_lower
                 (Some (py "/usr/share/applications/org.example.App.desktop"))
                 None None) (boot os1)
    = Ok cands
    ∧ comes_before (after_last 46 (ascii_lower (py "org.example.App")))
        (ascii_lower (py "org.example.App")) cands.
Proof.
  apply (build_icon_candidates_dot_order ascii_lower
           (Some (py "/usr/share/applications/org.example.App.desktop"))
           None None (boot os1) (Some (py "org.example.App"))
           [] (py "org.example.App") []).
  - by vm_compute.
  - by vm_compute.
  - by vm_compute.
  - by vm_compute.
  - vm_compute. intros H. apply list_elem_of_singleton in H. done.
  - vm_compute. intros H. by apply elem_of_nil in H.
Defined.

(** C1, as stated, fails: for the descriptor icon "org.example.App" (no
    exec hint, no normalized hint) the candidates are "org.example.App",
    "app", "org.example.app": the lowercase form does not come before the
    post-dot substring. *)
Lemma build_icon_candidates_lowercase_not_first :
  let cands := [py "org.example.App"; py "app"; py "org.example.app"] in
  result_of (build_icon_candidates ascii_lower
               (Some (py "/usr/share/applications/org.example.App.desktop"))
               None None) (boot os1)
  = Ok cands
  ∧ ¬ comes_before (py "org.example.app") (py "app") cands.
Proof.
  split; [by vm_compute|].
  intros (i & j & Hlt & Hi & Hj). vm_compute in Hi, Hj.
  destruct i as [|[|[|i]]]; try done.
  destruct j as [|[|[|j]]]; try done; lia.
Qed.

(** * Further properties *)

Lemma place_buttons_length sw x y rh sizes :
  length (place_buttons sw x y rh sizes) = length sizes.
Proof.
  revert x y rh. induction sizes as [|[w h] sizes IH]; intros x y rh; [done|].
  simpl. destruct (x + w + padding >? sw)%Z; simpl; by rewrite IH.
Qed.

Lemma place_buttons_cons sw x y rh w h sizes :
  place_buttons sw x y rh ((w, h) :: sizes) =
  if (x + w + 12 >? sw)%Z
  then (12, y + (rh + 12))%Z
       :: place_buttons sw (12 + (w + 12)) (y + (rh + 12))
            (if (h >? 0)%Z then h else 0%Z) sizes
  else (x, y)
       :: place_buttons sw (x + (w + 12)) y
            (if (h >? rh)%Z then h else rh) sizes.
Proof. simpl. unfold padding. by destruct (x + w + 12 >? sw)%Z. Qed.

Lemma Z_max_by_gtb (h rh : Z) :
  (rh ≤ (if (h >? rh)%Z then h else rh))%Z
  ∧ (h ≤ (if (h >? rh)%Z then h else rh))%Z.
Proof.
  destruct (h >? rh)%Z eqn:E.
  - apply Z.gtb_lt in E. lia.
  - rewrite Z.gtb_ltb, Z.ltb_ge in E. lia.
Qed.

Lemma place_buttons_after sw x y rh sizes j xj yj :
  nonneg_sizes sizes → (0 ≤ rh)%Z →
  place_buttons sw x y rh sizes !! j = Some (xj, yj) →
  (yj = y ∧ (x ≤ xj)%Z) ∨ (y + rh + padding ≤ yj)%Z.
Proof.
  unfold padding. intros Hs. revert x y rh j.
  induction Hs as [|[w h] sizes [Hw Hh] Hs IH]; intros x y rh j Hrh Hj;
    [done|].
  simpl in Hw, Hh. rewrite place_buttons_cons in Hj.
  pose proof (Z_max_by_gtb h rh) as [? ?].
  pose proof (Z_max_by_gtb h 0) as [? ?].
  destruct (x + w + 12 >? sw)%Z eqn:Hwrap; destruct j as [|j]; simpl in Hj.
  - injection Hj as <- <-. right. lia.
  - apply IH in Hj; lia.
  - injection Hj as <- <-. left. lia.
  - apply IH in Hj; lia.
Qed.

Lemma place_buttons_apart sw x y rh sizes i j xi yi xj yj wi hi :
  nonneg_sizes sizes → (0 ≤ rh)%Z → (i < j)%nat →
  sizes !! i = Some (wi, hi) →
  place_buttons sw x y rh sizes !! i = Some (xi, yi) →
  place_buttons sw x y rh sizes !! j = Some (xj, yj) →
  (yi = yj ∧ (xi + wi + padding ≤ xj)%Z) ∨ (yi + hi + padding ≤ yj)%Z.
Proof.
  unfold padding. intros Hs. revert x y rh i j.
  induction Hs as [|[w h] sizes [Hw Hh] Hs IH];
    intros x y rh i j Hrh Hij Hsi Hi Hj; [done|].
  simpl in Hw, Hh. rewrite place_buttons_cons in Hi, Hj.
  pose proof (Z_max_by_gtb h rh) as [? ?].
  pose proof (Z_max_by_gtb h 0) as [? ?].
  destruct j as [|j]; [lia|].
  destruct i as [|i].
  - injection Hsi as <- <-.
    destruct (x + w + 12 >? sw)%Z; simpl in Hi, Hj;
      injection Hi as <- <-;
      apply place_buttons_after in Hj; try done; unfold padding in *; lia.
  - simpl in Hsi.
    destruct (x + w + 12 >? sw)%Z; simpl in Hi, Hj;
      (eapply IH; [|by apply Nat.succ_lt_mono|done..]; lia).
Qed.

(** X1: buttons of [main] never overlap. Of two buttons, the later one
    either stands in the same row, to the right of the earlier one and its
    padding, or in a row below the earlier one and its padding. *)
Theorem button_positions_apart sw sizes i j xi yi xj yj wi hi :
  nonneg_sizes sizes → (i < j)%nat →
  sizes !! i = Some (wi, hi) →
  button_positions sw sizes !! i = Some (xi, yi) →
  button_positions sw sizes !! j = Some (xj, yj) →
  (yi = yj ∧ (xi + wi + padding ≤ xj)%Z) ∨ (yi + hi + padding ≤ yj)%Z.
Proof.
  intros Hs Hij Hsi Hi Hj.
  by eapply (place_buttons_apart sw padding padding 0 sizes i j).
Qed.

Lemma button_positions_apart_witness :
  (12%Z = 114%Z ∧ (124 + 100 + padding ≤ 12)%Z) ∨ (12 + 90 + padding ≤ 114)%Z.
Proof.
  apply (button_positions_apart 300 [(100, 80); (100, 90); (100, 70)]%Z
           1 2 124 12 12 114 100 90).
  - repeat constructor; simpl; lia.
  - lia.
  - reflexivity.
  - reflexivity.
  - reflexivity.
Defined.

Lemma place_buttons_fit sw x y rh sizes i xi yi wi hi :
  sizes !! i = Some (wi, hi) →
  place_buttons sw x y rh sizes !! i = Some (xi, yi) →
  xi = padding ∨ (xi + wi + padding ≤ sw)%Z.
Proof.
  unfold padding. revert x y rh i.
  induction sizes as [|[w h] sizes IH]; intros x y rh i Hsi Hi; [done|].
  rewrite place_buttons_cons in Hi.
  destruct (x + w + 12 >? sw)%Z eqn:Hwrap; destruct i as [|i];
    simpl in Hsi, Hi.
  - injection Hi as <- <-. by left.
  - by eapply IH.
  - injection Hi as <- <-. injection Hsi as <- <-. right.
    rewrite Z.gtb_ltb, Z.ltb_ge in Hwrap. lia.
  - by eapply IH.
Qed.

(** X2: a button of [main] ends, with its padding, within the width of the
    screen, unless it stands at the start of its row (then it is wider
    than the screen allows and is placed all the same). *)
Theorem button_positions_fit sw sizes i xi yi wi hi :
  sizes !! i = Some (wi, hi) →
  button_positions sw sizes !! i = Some (xi, yi) →
  xi = padding ∨ (xi + wi + padding ≤ sw)%Z.
Proof. apply place_buttons_fit. Qed.

Lemma button_positions_fit_witness :
  124%Z = padding ∨ (124 + 100 + padding ≤ 300)%Z.
Proof.
  apply (button_positions_fit 300 [(100, 80); (100, 90); (100, 70)]%Z
           1 124 12 100 90); reflexivity.
Defined.

Lemma place_buttons_bounds sw x y rh sizes i xi yi :
  nonneg_sizes sizes → (0 ≤ rh)%Z → (padding ≤ x)%Z →
  place_buttons sw x y rh sizes !! i = Some (xi, yi) →
  (padding ≤ xi)%Z ∧ (y ≤ yi)%Z.
Proof.
  unfold padding. intros Hs. revert x y rh i.
  induction Hs as [|[w h] sizes [Hw Hh] Hs IH]; intros x y rh i Hrh Hx Hi;
    [done|].
  simpl in Hw, Hh. rewrite place_buttons_cons in Hi.
  pose proof (Z_max_by_gtb h rh) as [? ?].
  pose proof (Z_max_by_gtb h 0) as [? ?].
  destruct (x + w + 12 >? sw)%Z; destruct i as [|i]; simpl in Hi.
  - injection Hi as <- <-. lia.
  - apply IH in Hi; lia.
  - injection Hi as <- <-. lia.
  - apply IH in Hi; lia.
Qed.

Lemma place_buttons_downwards sw x y rh sizes i j xi yi xj yj :
  nonneg_sizes sizes → (0 ≤ rh)%Z → (i ≤ j)%nat →
  place_buttons sw x y rh sizes !! i = Some (xi, yi) →
  place_buttons sw x y rh sizes !! j = Some (xj, yj) →
  (yi ≤ yj)%Z.
Proof.
  intros Hs Hrh Hij Hi Hj.
  destruct (decide (i = j)) as [->|Hne]; [by simplify_eq|].
  destruct (sizes !! i) as [[wi hi]|] eqn:Hsi.
  - assert (0 ≤ hi)%Z as Hhi.
    { unfold nonneg_sizes in Hs. rewrite Forall_lookup in Hs.
      by destruct (Hs i _ Hsi). }
    destruct (place_buttons_apart sw x y rh sizes i j xi yi xj yj wi hi)
      as [[-> _]|?]; try done; unfold padding in *; lia.
  - apply lookup_ge_None in Hsi. apply lookup_lt_Some in Hi.
    rewrite place_buttons_length in Hi. lia.
Qed.

(** X3: every button of [main] keeps the padding to the left and upper
    edge, and the rows go downwards: a later button is never placed
    higher than an earlier one. *)
Theorem button_positions_bounds sw sizes i j xi yi xj yj :
  nonneg_sizes sizes → (i ≤ j)%nat →
  button_positions sw sizes !! i = Some (xi, yi) →
  button_positions sw sizes !! j = Some (xj, yj) →
  (padding ≤ xi)%Z ∧ (padding ≤ yi)%Z ∧ (yi ≤ yj)%Z.
Proof.
  intros Hs Hij Hi Hj.
  destruct (place_buttons_bounds sw padding padding 0 sizes i xi yi Hs
              ltac:(lia) ltac:(lia) Hi) as [? ?].
  split_and!; [done..|].
  by apply (place_buttons_downwards sw padding padding 0 sizes i j xi yi xj yj
              Hs ltac:(lia)).
Qed.

Lemma button_positions_bounds_witness :
  (padding ≤ 124)%Z ∧ (padding ≤ 12)%Z ∧ (12 ≤ 114)%Z.
Proof.
  apply (button_positions_bounds 300 [(100, 80); (100, 90); (100, 70)]%Z
           1 2 124 12 12 114).
  - repeat constructor; simpl; lia.
  - lia.
  - reflexivity.
  - reflexivity.
Defined.

Lemma lstrip_nil_or_word s : lstrip s = [] ∨ starts_word (lstrip s) = true.
Proof.
  induction s as [|c s IH]; [by left|]. simpl.
  destruct (isspace c) eqn:Hc; [done|]. right. simpl. by rewrite Hc.
Qed.

Lemma word_end_spec r w rest :
  starts_word r = true → word_end r = (w, rest) →
  r = w ++ rest ∧ is_word w
  ∧ (rest = [] ∨ ∃ y rest', rest = y :: rest' ∧ isspace y = true).
Proof.
  revert w rest. induction r as [|c r IH]; intros w rest Hr Hw; [done|].
  simpl in Hr. apply negb_true_iff in Hr. simpl in Hw. rewrite Hr in Hw.
  destruct (word_end r) as [w' rest'] eqn:E. injection Hw as <- <-.
  destruct r as [|c' r'].
  - simpl in E. injection E as <- <-. split_and!; [done| |by left].
    split; [done|]. by constructor.
  - destruct (isspace c') eqn:Hc'.
    + simpl in E. rewrite Hc' in E. injection E as <- <-.
      split_and!; [done| |right; eauto]. split; [done|]. by constructor.
    + destruct (IH w' rest') as (-> & [_ Hw'] & Hrest); [|done|].
      { simpl. by rewrite Hc'. }
      split_and!; [done| |done]. split; [done|]. by constructor.
Qed.

Lemma split_max_0 s :
  split_max 0 s = match lstrip s with [] => [] | r => [r] end.
Proof. done. Qed.

Lemma split_max_S n s :
  split_max (S n) s =
  match lstrip s with
  | [] => []
  | r => let '(w, rest) := word_end r in w :: split_max n rest
  end.
Proof. done. Qed.

Lemma split_max_spec n s :
  ((length (split s) ≤ n)%nat ∧ split_max n s = split s)
  ∨ ((n < length (split s))%nat
     ∧ ∃ pre r, s = pre ++ r ∧ split pre = take n (split s)
                ∧ starts_word r = true ∧ split r = drop n (split s)
                ∧ split_max n s = take n (split s) ++ [r]).
Proof.
  revert s. induction n as [|n IH]; intros s.
  - destruct (lstrip_spec s) as (ws & Es & Hws).
    destruct (lstrip_nil_or_word s) as [E|Hr].
    + left. rewrite <- split_lstrip, E. split; [simpl; lia|].
      by rewrite split_max_0, E.
    + right. pose proof (split_starts_word _ Hr) as Hne.
      rewrite split_lstrip in Hne. split.
      { destruct (split s); [done|simpl; lia]. }
      exists ws, (lstrip s). split_and!; [done| |done| |].
      * by rewrite split_all_space.
      * by rewrite split_lstrip.
      * rewrite split_max_0. by destruct (lstrip s).
  - destruct (lstrip_spec s) as (ws & Es & Hws).
    destruct (lstrip_nil_or_word s) as [E|Hr].
    + left. rewrite <- split_lstrip, E. split; [simpl; lia|].
      by rewrite split_max_S, E.
    + destruct (word_end (lstrip s)) as [w rest] eqn:Ew.
      destruct (word_end_spec _ _ _ Hr Ew) as (Er & Hw & Hrest).
      assert (split s = w :: split rest) as Esplit.
      { rewrite <- split_lstrip, Er. by apply split_word_app. }
      assert (split_max (S n) s = w :: split_max n rest) as Emax.
      { clear -Ew Hr. rewrite split_max_S.
        destruct (lstrip s); [done|]. by rewrite Ew. }
      rewrite Emax, Esplit. simpl length. simpl take. simpl drop.
      destruct (IH rest) as [[Hlen ->]|(Hlen & pre & r & Erest & Hpre & Hr' & Hsr & ->)].
      * left. split; [lia|done].
      * right. split; [lia|].
        exists (ws ++ w ++ pre), r. split_and!; [| |done|done|done].
        -- rewrite Es at 1. rewrite Er, Erest. by rewrite <- !app_assoc.
        -- rewrite <- Hpre.
           assert (split (ws ++ w ++ pre) = split (w ++ pre)) as ->.
           { clear -Hws. induction Hws as [|y ws Hy _ IHws]; [done|].
             rewrite <- app_comm_cons. by rewrite split_space. }
           apply split_word_app; [done|].
           destruct pre as [|y pre']; [by left|]. right.
           destruct Hrest as [->|(y' & rest' & -> & Hy')]; [done|].
           injection Erest as <- _. eauto.
Qed.

Lemma parse_window_fields lower line win_id exe_name win_name :
  parse_window lower line = Some (win_id, exe_name, win_name) →
  ∃ pre cls f3 f4,
    line = pre ++ win_name ∧ split pre = [win_id; cls; f3; f4]
    ∧ starts_word win_name = true ∧ exe_name = lower (after_last 46 cls).
Proof.
  unfold parse_window. intros H.
  destruct (split_max_spec 4 line)
    as [[Hlen E]|(Hlen & pre & r & El & Hpre & Hr & _ & E)]; rewrite E in H.
  - destruct (split line) as [|a [|b [|c [|d [|e ?]]]]]; simpl in Hlen;
      try done; lia.
  - destruct (split line) as [|a [|b [|c [|d [|e l]]]]]; simpl in Hlen;
      try lia.
    simpl in H, Hpre. injection H as <- <- <-.
    by exists pre, b, c, d.
Qed.

Lemma parse_window_is_Some lower line :
  is_Some (parse_window lower line) ↔ (5 ≤ length (split line))%nat.
Proof.
  unfold parse_window.
  destruct (split_max_spec 4 line)
    as [[Hlen E]|(Hlen & pre & r & El & Hpre & Hr & _ & E)]; rewrite E.
  - destruct (split line) as [|a [|b [|c [|d [|e ?]]]]]; simpl in Hlen;
      try lia; (split; [by intros [? ?]|simpl; lia]).
  - destruct (split line) as [|a [|b [|c [|d [|e l]]]]]; simpl in Hlen;
      try lia.
    simpl. split; [lia|by eexists].
Qed.

Lemma split_max_length n s : (length (split_max n s) ≤ S n)%nat.
Proof.
  destruct (split_max_spec n s) as [[Hlen ->]|(Hlen & ? & ? & _ & _ & _ & _ & ->)].
  - lia.
  - rewrite length_app, length_take. simpl. lia.
Qed.

Lemma run_window_loop lower lines windows w :
  for_each lines (λ line windows,
    let parts := split_max 4 line in
    if (length parts <? 5)%nat then mret windows
    else
      match parts with
      | [win_id; wm_class_full; _; _; win_name] =>
          let exe_name := lower (after_last 46 wm_class_full) in
          mret (windows ++ [(win_id, exe_name, win_name)])
      | _ => mret windows
      end) windows w
  = (Ok (windows ++ omap (parse_window lower) lines), w).
Proof.
  set (body := λ (line : str) (windows : list (str * str * str)), _).
  assert (∀ line ws,
            body line ws w
            = (Ok (ws ++ omap (parse_window lower) [line]), w)) as Hbody.
  { intros line ws. unfold body. cbv zeta. simpl omap.
    unfold parse_window.
    pose proof (split_max_length 4 line) as Hlen.
    destruct (split_max 4 line) as [|a [|b [|c [|d [|e [|? ?]]]]]];
      simpl in Hlen; try lia; simpl; by rewrite ?app_nil_r. }
  clearbody body.
  revert windows. induction lines as [|line lines IH]; intros windows.
  - simpl. by rewrite app_nil_r.
  - change (for_each (line :: lines) body windows)
      with (body line windows ≫= λ s', for_each lines body s').
    erewrite run_bind by apply Hbody. rewrite IH.
    simpl omap. destruct (parse_window lower line); simpl;
      by rewrite <- ?app_assoc, ?app_nil_r.
Qed.

Lemma run_get_running_windows lower w :
  result_of (get_running_windows lower) w =
  match os_run (w_os w) wmctrl_lx with
  | NotStarted e => if is_CalledProcessError e then Ok [] else Raise e
  | Exited 0%Z out =>
      match utf8_decode out with
      | Some text => Ok (omap (parse_window lower) (splitlines text))
      | None => Raise UnicodeDecodeError
      end
  | Exited _ _ => Ok []
  end.
Proof.
  unfold get_running_windows, result_of. cbv zeta.
  unfold try_except, check_output, decode.
  unfold mbind at 1, M_bind. unfold mbind at 1 2 3, M_bind, ask, raise.
  simpl.
  destruct (os_run (w_os w) wmctrl_lx) as [e|rc out]; simpl.
  - by destruct e.
  - destruct rc; simpl; [|done..].
    destruct (utf8_decode out) as [text|]; simpl; [|done].
    by rewrite run_window_loop.
Qed.

(** X4: a non-zero exit of wmctrl gives the empty window list, but
    a wmctrl that cannot be started (not installed) and output that is not
    UTF-8 are not caught: the exception reaches the caller. *)
Theorem get_running_windows_failures lower w :
  (∀ rc out, os_run (w_os w) wmctrl_lx = Exited rc out → rc ≠ 0%Z →
             result_of (get_running_windows lower) w = Ok [])
  ∧ (∀ e, os_run (w_os w) wmctrl_lx = NotStarted e →
          is_CalledProcessError e = false →
          result_of (get_running_windows lower) w = Raise e)
  ∧ (∀ out, os_run (w_os w) wmctrl_lx = Exited 0 out →
            utf8_decode out = None →
            result_of (get_running_windows lower) w
            = Raise UnicodeDecodeError).
Proof.
  rewrite run_get_running_windows. split_and!.
  - intros rc out -> Hrc. by destruct rc.
  - by intros e -> ->.
  - by intros out -> ->.
Qed.

Lemma get_running_windows_failures_witness :
  result_of (get_running_windows ascii_lower) (boot os_no_xfconf)
  = Raise FileNotFoundError.
Proof.
  apply (proj1 (proj2 (get_running_windows_failures ascii_lower
                         (boot os_no_xfconf))) FileNotFoundError);
    reflexivity.
Defined.

(** X5: when wmctrl succeeds, the windows returned are as many as
    the lines of its output that have at least five whitespace-separated
    fields; a line with fewer fields (a window without a title) is
    dropped. *)
Theorem get_running_windows_count lower w out text :
  os_run (w_os w) wmctrl_lx = Exited 0 out →
  utf8_decode out = Some text →
  ∃ windows,
    result_of (get_running_windows lower) w = Ok windows
    ∧ length windows
      = length (filter (λ line, (5 ≤ length (split line))%nat)
                  (splitlines text)).
Proof.
  intros Hrun Hdec. rewrite run_get_running_windows, Hrun, Hdec.
  eexists. split; [done|].
  induction (splitlines text) as [|line lines IH]; [done|].
  simpl omap. rewrite filter_cons.
  pose proof (parse_window_is_Some lower line) as Hp.
  destruct (parse_window lower line) as [win|].
  - rewrite decide_True by (apply Hp; by eexists).
    simpl length. f_equal. exact IH.
  - rewrite decide_False; [done|].
    intros H. apply Hp in H. by destruct H.
Qed.

Lemma get_running_windows_count_witness :
  ∃ windows,
    result_of (get_running_windows ascii_lower) (boot os_windows)
    = Ok windows
    ∧ length windows
      = length (filter (λ line, (5 ≤ length (split line))%nat)
                  (splitlines
                     (text_line
                        "0x03 0 xfce4-terminal.Xfce4-terminal  host htop"
                      ++ text_line "0x04 0 mousepad.Mousepad  host "
                      ++ text_line
                           "0x05 -1 Navigator.Firefox  host  Mozilla  Firefox "))).
Proof.
  apply (get_running_windows_count ascii_lower (boot os_windows)
           (text_line "0x03 0 xfce4-terminal.Xfce4-terminal  host htop"
            ++ text_line "0x04 0 mousepad.Mousepad  host "
            ++ text_line
                 "0x05 -1 Navigator.Firefox  host  Mozilla  Firefox "));
    reflexivity.
Defined.

(** X6: every window returned comes from a line of the output
    of wmctrl: its id is the first field of the line, its exec hint the
    lower-cased part after the last '.' of the second field, and its title
    the rest of the line from the fifth field on, inner and trailing
    whitespace included. *)
Theorem get_running_windows_fields
    lower w out text windows win_id exe_name win_name :
  os_run (w_os w) wmctrl_lx = Exited 0 out →
  utf8_decode out = Some text →
  result_of (get_running_windows lower) w = Ok windows →
  (win_id, exe_name, win_name) ∈ windows →
  ∃ line pre cls f3 f4,
    line ∈ splitlines text
    ∧ line = pre ++ win_name ∧ split pre = [win_id; cls; f3; f4]
    ∧ starts_word win_name = true ∧ exe_name = lower (after_last 46 cls).
Proof.
  intros Hrun Hdec. rewrite run_get_running_windows, Hrun, Hdec.
  intros [= <-] Hin.
  apply list_elem_of_omap in Hin as (line & Hline & Hp).
  apply parse_window_fields in Hp as (pre & cls & f3 & f4 & ? & ? & ? & ?).
  by exists line, pre, cls, f3, f4.
Qed.

Lemma get_running_windows_fields_witness :
  ∃ line pre cls f3 f4,
    line ∈ splitlines
             (text_line "0x03 0 xfce4-terminal.Xfce4-terminal  host htop"
              ++ text_line "0x04 0 mousepad.Mousepad  host "
              ++ text_line
                   "0x05 -1 Navigator.Firefox  host  Mozilla  Firefox ")
    ∧ line = pre ++ py "Mozilla  Firefox "
    ∧ split pre = [py "0x05"; cls; f3; f4]
    ∧ starts_word (py "Mozilla  Firefox ") = true
    ∧ py "-1" = ascii_lower (after_last 46 cls).
Proof.
  apply (get_running_windows_fields ascii_lower (boot os_windows)
           (text_line "0x03 0 xfce4-terminal.Xfce4-terminal  host htop"
            ++ text_line "0x04 0 mousepad.Mousepad  host "
            ++ text_line
                 "0x05 -1 Navigator.Firefox  host  Mozilla  Firefox ")
           (text_line "0x03 0 xfce4-terminal.Xfce4-terminal  host htop"
            ++ text_line "0x04 0 mousepad.Mousepad  host "
            ++ text_line
                 "0x05 -1 Navigator.Firefox  host  Mozilla  Firefox ")
           [(py "0x03", py "0", py "htop");
            (py "0x05", py "-1", py "Mozilla  Firefox ")]).
  - reflexivity.
  - reflexivity.
  - by vm_compute.
  - apply list_elem_of_further, list_elem_of_here.
Defined.

(** ** More on the icon searcher *)

Lemma startswith_app s t : startswith (s ++ t) s = true.
Proof.
  induction s as [|c s IH]; [by destruct t|]. simpl.
  by rewrite N.eqb_refl, IH.
Qed.

Lemma endswith_app s t : endswith (s ++ t) t = true.
Proof. unfold endswith. rewrite reverse_app. apply startswith_app. Qed.

Lemma endswith_refl s : endswith s s = true.
Proof. apply (endswith_app [] s). Qed.

Lemma path_join_one_suffix a b : endswith (path_join a [b]) b = true.
Proof.
  unfold path_join. simpl.
  destruct (startswith b (py "/")); [apply endswith_refl|].
  destruct (bool_decide (a = []) || endswith a (py "/")).
  - apply endswith_app.
  - rewrite cons_middle, app_assoc. apply endswith_app.
Qed.

Lemma root_holds_match os icon_name base :
  root_holds os icon_name base ↔ is_Some (match_in_root os icon_name base).
Proof.
  split.
  - intros (root & dirs & files & ext & Ht & Hext & Hin).
    destruct (match_in_root os icon_name base) eqn:E; [done|].
    rewrite match_in_root_None in E. by destruct (E _ _ _ _ Ht Hext).
  - intros [p (root & dirs & files & ext & ? & ? & ? & _)%match_in_root_Some].
    by exists root, dirs, files, ext.
Qed.


(** X8: a path returned by [search_icon] is the join of a
    directory in the walk of one of the search paths with a file of that
    directory, named after the icon with a recognised extension; the path
    ends in that file name. *)
Theorem search_icon_sound icon_name paths w p :
  result_of (search_icon icon_name paths) w = Ok (Some p) →
  ∃ base root dirs files ext,
    base ∈ paths ∧ (root, dirs, files) ∈ os_walk (w_os w) base
    ∧ ext ∈ ICON_EXTS ∧ icon_file icon_name ext ∈ files
    ∧ p = path_join root [icon_file icon_name ext]
    ∧ endswith p (icon_file icon_name ext) = true.
Proof.
  unfold result_of. rewrite run_search_icon. simpl fst. intros [= H].
  apply first_some_Some in H as (pre & base & post & -> & H & _).
  apply match_in_root_Some in H as (root & dirs & files & ext & ? & ? & ? & ->).
  exists base, root, dirs, files, ext. split_and!; try done.
  - apply elem_of_app. right. by left.
  - apply path_join_one_suffix.
Qed.

Lemma search_icon_sound_witness :
  ∃ base root dirs files ext,
    base ∈ [py "/t/first"; py "/t/second"]
    ∧ (root, dirs, files) ∈ os_walk os_two_roots base
    ∧ ext ∈ ICON_EXTS ∧ icon_file (py "htop") ext ∈ files
    ∧ py "/t/first/apps/htop.gif" = path_join root [icon_file (py "htop") ext]
    ∧ endswith (py "/t/first/apps/htop.gif") (icon_file (py "htop") ext)
      = true.
Proof.
  apply (search_icon_sound (py "htop") [py "/t/first"; py "/t/second"]
           (boot os_two_roots)).
  by vm_compute.
Defined.

(** X9: inside one search path the order of the walk has
    priority over the order of the extensions. The first directory of the
    walk that holds the icon under any recognised extension decides, with
    the first extension of [ICON_EXTS] it holds; a file with an extension
    of higher priority in a later directory of the walk is not seen. *)
Theorem search_icon_walk_order
    icon_name base w before root dirs files after exts_before ext exts_after :
  os_walk (w_os w) base = before ++ (root, dirs, files) :: after →
  (∀ root' dirs' files' ext',
     (root', dirs', files') ∈ before → ext' ∈ ICON_EXTS →
     icon_file icon_name ext' ∉ files') →
  ICON_EXTS = exts_before ++ ext :: exts_after →
  (∀ ext', ext' ∈ exts_before → icon_file icon_name ext' ∉ files) →
  icon_file icon_name ext ∈ files →
  result_of (search_icon icon_name [base]) w
  = Ok (Some (path_join root [icon_file icon_name ext])).
Proof.
  intros Hwalk Hbefore Hexts Hearlier Hin.
  assert (match_in_root (w_os w) icon_name base
          = Some (path_join root [icon_file icon_name ext])) as E.
  { unfold match_in_root. rewrite Hwalk, first_some_app.
    replace (first_some (match_in_dir icon_name) before)
      with (@None (list N)).
    2:{ symmetry. apply first_some_None. intros [[root' dirs'] files'] Ht.
        unfold match_in_dir. apply first_some_None. intros ext' Hext'.
        rewrite bool_decide_false; [done|]. by eapply Hbefore. }
    change (first_some (match_in_dir icon_name) ((root, dirs, files) :: after))
      with (match match_in_dir icon_name (root, dirs, files) with
            | Some v => Some v
            | None => first_some (match_in_dir icon_name) after
            end).
    replace (match_in_dir icon_name (root, dirs, files))
      with (Some (path_join root [icon_file icon_name ext])); [done|].
    symmetry. unfold match_in_dir. rewrite Hexts, first_some_app.
    rewrite (proj2 (first_some_None _ exts_before)).
    - simpl. by rewrite bool_decide_true.
    - intros ext' Hext'. rewrite bool_decide_false; [done|].
      by apply Hearlier. }
  unfold result_of. rewrite run_search_icon. simpl. by rewrite E.
Qed.

Lemma search_icon_walk_order_witness :
  result_of (search_icon (py "htop") [py "/t/icons"]) (boot os_walk_order)
  = Ok (Some (path_join (py "/t/icons/scalable")
                [icon_file (py "htop") (py "svg")])).
Proof.
  apply (search_icon_walk_order (py "htop") (py "/t/icons")
           (boot os_walk_order)
           [(py "/t/icons", [py "scalable"; py "48"], [])]
           (py "/t/icons/scalable") [] [py "htop.gif"; py "htop.svg"]
           [(py "/t/icons/48", [], [py "htop.png"])]
           [py "png"] (py "svg")
           [py "xpm"; py "jpg"; py "jpeg"; py "bmp"; py "gif"]).
  - reflexivity.
  - intros root' dirs' files' ext' Ht _ Hin.
    apply list_elem_of_singleton in Ht. injection Ht as _ _ ->.
    by apply elem_of_nil in Hin.
  - reflexivity.
  - intros ext' ->%list_elem_of_singleton. vm_compute.
    intros Hin. repeat (apply elem_of_cons in Hin as [Hin|Hin]; [done|]).
    by apply elem_of_nil in Hin.
  - vm_compute. apply list_elem_of_further, list_elem_of_here.
Defined.

(** ** The resolver *)

Lemma path_join_one_not_empty a b : b ≠ [] → path_join a [b] ≠ [].
Proof.
  intros Hb. unfold path_join. simpl.
  destruct (startswith b (py "/")); [done|].
  destruct (bool_decide (a = []) || endswith a (py "/"));
    intros [_ ?]%app_eq_nil; done.
Qed.

Lemma match_in_root_truthy os icon_name paths :
  truthy (first_some (match_in_root os icon_name) paths)
  = bool_decide (is_Some (first_some (match_in_root os icon_name) paths)).
Proof.
  destruct (first_some _ paths) as [p|] eqn:E; [|done].
  apply first_some_Some in E as (_ & base & _ & _ & E & _).
  apply match_in_root_Some in E as (root & dirs & files & ext & _ & _ & _ & ->).
  destruct (path_join root [icon_file icon_name ext]) eqn:Ep; [|done].
  apply path_join_one_not_empty in Ep; [done|].
  unfold icon_file. by destruct icon_name.
Qed.

Lemma run_for_return_reads_result {X R} (f : OS → X → PyResult (option R))
    body (xs : list X) :
  (∀ x w, result_of (body x) w = f (w_os w) x
          ∧ w_os (world_after (body x) w) = w_os w) →
  ∀ w, result_of (for_return xs body) w = first_result (f (w_os w)) xs
       ∧ w_os (world_after (for_return xs body) w) = w_os w.
Proof.
  intros Hb. induction xs as [|x xs IH]; intros w; [done|].
  simpl. destruct (Hb x w) as [Hr Hw].
  unfold result_of, world_after, mbind, M_bind in *.
  destruct (body x w) as [r w'] eqn:E. simpl in Hr, Hw. subst r.
  destruct (f (w_os w) x) as [[v|]|e] eqn:Ef; [done| |done].
  destruct (IH w') as [Hr' Hw']. by rewrite Hr', Hw', Hw.
Qed.

Lemma run_try_candidate cand search_paths w :
  let body :=
    found ← search_icon cand search_paths;
    print (DbgTrying cand found);;
    if truthy found then mret found else mret None in
  result_of body w = try_candidate (w_os w) search_paths cand
  ∧ w_os (world_after body w) = w_os w.
Proof.
  intros body. split.
  - unfold body, result_of. erewrite run_bind by apply run_search_icon.
    unfold try_candidate, mbind, M_bind, print. simpl.
    rewrite match_in_root_truthy.
    destruct (first_some _ search_paths) as [p|]; simpl.
    + by destruct (encodable (w_os w) (cand ++ p)).
    + by destruct (encodable (w_os w) (cand ++ [])).
  - assert (reads_only body) as H by (unfold body; reads).
    apply H.
Qed.

Lemma run_get_icon_path
    lower desktop_file exe_name last_word search_paths w icon :
  result_of (read_icon_from_desktop desktop_file) w = Ok icon →
  result_of (get_icon_path lower desktop_file exe_name last_word
               search_paths) w
  = first_result (try_candidate (w_os w) search_paths)
      (candidates_for lower icon exe_name last_word).
Proof.
  intros Hicon. unfold get_icon_path.
  pose proof (run_build_icon_candidates lower desktop_file exe_name last_word
                w icon Hicon) as Hc.
  rewrite (result_of_bind_ok _ _ w _ Hc).
  destruct (reads_only_build_icon_candidates lower desktop_file exe_name
              last_word w) as [Hos _].
  rewrite <- Hos.
  apply (run_for_return_reads_result
           (λ os cand, try_candidate os search_paths cand)).
  intros cand w0. apply run_try_candidate.
Qed.

Lemma first_result_Some {X R} (f : X → PyResult (option R)) xs v :
  first_result f xs = Ok (Some v) → ∃ x, x ∈ xs ∧ f x = Ok (Some v).
Proof.
  induction xs as [|x xs IH]; [done|]. simpl.
  destruct (f x) as [[v'|]|e] eqn:E.
  - intros [= ->]. exists x. split; [by left|done].
  - intros (y & ? & ?)%IH. exists y. split; [by right|done].
  - done.
Qed.



Lemma first_result_app_None {X R} (f : X → PyResult (option R)) xs ys :
  (∀ x, x ∈ xs → f x = Ok None) →
  first_result f (xs ++ ys) = first_result f ys.
Proof.
  induction xs as [|x xs IH]; intros H; [done|].
  simpl. rewrite (H x) by by left. apply IH. intros y ?. apply H. by right.
Qed.





Lemma build_icon_candidates_Ok lower desktop_file exe_name last_word w cands :
  result_of (build_icon_candidates lower desktop_file exe_name last_word) w
  = Ok cands →
  ∃ icon, result_of (read_icon_from_desktop desktop_file) w = Ok icon
          ∧ cands = candidates_for lower icon exe_name last_word.
Proof.
  rewrite result_of_build_icon_candidates.
  destruct (result_of (read_icon_from_desktop desktop_file) w) as [icon|e];
    [|done].
  intros [= <-]. by exists icon.
Qed.



(** X11: candidate order has priority over search-path order.
    When no candidate before [cand] is held by any search path and [cand]
    is held by some search path, [get_icon_path] returns what
    [search_icon] finds for [cand], even if a later candidate is held by
    an earlier search path; this provided the candidates up to [cand]
    and the path found can be written to the standard output, else the
    UnicodeEncodeError of the debug line is raised. *)
Theorem get_icon_path_candidate_order
    lower desktop_file exe_name last_word search_paths w cands
    before cand after base :
  result_of (build_icon_candidates lower desktop_file exe_name last_word) w
  = Ok cands →
  cands = before ++ cand :: after →
  (∀ c b, c ∈ before → b ∈ search_paths → ¬ root_holds (w_os w) c b) →
  base ∈ search_paths → root_holds (w_os w) cand base →
  ∃ p, result_of (search_icon cand search_paths) w = Ok (Some p)
       ∧ result_of (get_icon_path lower desktop_file exe_name last_word
                      search_paths) w
         = if forallb (encodable (w_os w)) (before ++ [cand; p])
           then Ok (Some p) else Raise UnicodeEncodeError.
Proof.
  intros (icon & Hicon & Hc)%build_icon_candidates_Ok E Hbefore Hbase Hholds.
  rewrite (run_get_icon_path _ _ _ _ _ _ _ Hicon), <- Hc, E.
  unfold result_of at 1. rewrite run_search_icon. simpl fst.
  destruct (first_some (match_in_root (w_os w) cand) search_paths) as [p|]
    eqn:Hp.
  2:{ rewrite first_some_None in Hp. apply root_holds_match in Hholds as [p H].
      by rewrite (Hp base Hbase) in H. }
  exists p. split; [done|].
  rewrite forallb_app. simpl. rewrite andb_true_r.
  assert (try_candidate (w_os w) search_paths cand
          = if encodable (w_os w) cand && encodable (w_os w) p
            then Ok (Some p) else Raise UnicodeEncodeError) as Hcand.
  { unfold try_candidate. cbv zeta. by rewrite Hp, encodable_app. }
  clear E Hc. revert Hbefore.
  induction before as [|c before IH]; intros Hbefore.
  - simpl. rewrite Hcand.
    by destruct (encodable (w_os w) cand && encodable (w_os w) p).
  - simpl. unfold try_candidate at 1. cbv zeta.
    rewrite (proj2 (first_some_None _ search_paths)).
    2:{ intros b Hb. destruct (match_in_root (w_os w) c b) eqn:Hm; [|done].
        destruct (Hbefore c b); [by left|done|].
        apply root_holds_match. by eexists. }
    simpl. rewrite app_nil_r.
    destruct (encodable (w_os w) c); [|done]. simpl.
    apply IH. intros c' b Hc' Hb. apply Hbefore; [by right|done].
Qed.

Lemma get_icon_path_candidate_order_witness :
  ∃ p, result_of (search_icon (py "accessories-editor")
                    [py "/t/first"; py "/t/second"]) (boot os_candidates)
       = Ok (Some p)
       ∧ result_of (get_icon_path ascii_lower
                      (Some (py "/usr/share/applications/editor.desktop"))
                      (Some (py "Mousepad")) None
                      [py "/t/first"; py "/t/second"]) (boot os_candidates)
         = if forallb (encodable (w_os (boot os_candidates)))
                ([] ++ [py "accessories-editor"; p])
           then Ok (Some p) else Raise UnicodeEncodeError.
Proof.
  apply (get_icon_path_candidate_order ascii_lower
           (Some (py "/usr/share/applications/editor.desktop"))
           (Some (py "Mousepad")) None [py "/t/first"; py "/t/second"]
           (boot os_candidates)
           [py "accessories-editor"; py "Mousepad"; py "mousepad"]
           [] (py "accessories-editor") [py "Mousepad"; py "mousepad"]
           (py "/t/second")).
  - by vm_compute.
  - reflexivity.
  - intros c b Hc. by apply elem_of_nil in Hc.
  - apply list_elem_of_further, list_elem_of_here.
  - exists (py "/t/second"), [], [py "accessories-editor.xpm"], (py "xpm").
    split_and!.
    + vm_compute. apply list_elem_of_here.
    + vm_compute. do 2 apply list_elem_of_further. apply list_elem_of_here.
    + vm_compute. apply list_elem_of_here.
Defined.

(** ** More on the candidate builder *)

Lemma derived_variants_cons lower s cs :
  derived_variants lower (s :: cs)
  = derived_variants lower [s] ++ derived_variants lower cs.
Proof. apply (derived_variants_app lower [s] cs). Qed.

Lemma derived_variants_one lower s :
  derived_variants lower [s] =
  if negb (truthy (Some s)) then []
  else (if has_char 46 (lower s) then [after_last 46 (lower s)] else [])
       ++ [lower s; remove_spaces (lower s)].
Proof.
  unfold derived_variants. destruct s as [|c s']; [done|].
  simpl. by destruct (has_char 46 (lower (c :: s'))).
Qed.

Lemma derived_variants_from lower cs x :
  x ∈ derived_variants lower cs →
  ∃ s, s ∈ cs
       ∧ (x = lower s ∨ x = remove_spaces (lower s)
          ∨ (has_char 46 (lower s) = true ∧ x = after_last 46 (lower s))).
Proof.
  induction cs as [|s cs IH]; [by intros ?%elem_of_nil|].
  rewrite derived_variants_cons, derived_variants_one.
  intros [Hx|Hx]%elem_of_app.
  - exists s. split; [by left|].
    destruct (negb (truthy (Some s))); [by apply elem_of_nil in Hx|].
    destruct (has_char 46 (lower s)) eqn:Hdot; simpl in Hx;
      repeat (apply elem_of_cons in Hx as [->|Hx]); auto;
      by apply elem_of_nil in Hx.
  - destruct (IH Hx) as (s' & ? & ?). exists s'. split; [by right|done].
Qed.

Lemma derived_variants_has lower cs s :
  s ∈ cs → s ≠ [] →
  lower s ∈ derived_variants lower cs
  ∧ remove_spaces (lower s) ∈ derived_variants lower cs
  ∧ (has_char 46 (lower s) = true →
     after_last 46 (lower s) ∈ derived_variants lower cs).
Proof.
  intros Hs Hne. induction cs as [|s' cs IH]; [by apply elem_of_nil in Hs|].
  rewrite derived_variants_cons.
  apply elem_of_cons in Hs as [<-|Hs].
  - rewrite derived_variants_one.
    replace (negb (truthy (Some s))) with false by by destruct s.
    split_and!.
    + apply elem_of_app. left. apply elem_of_app. right. by left.
    + apply elem_of_app. left. apply elem_of_app. right.
      apply list_elem_of_further, list_elem_of_here.
    + intros ->. apply elem_of_app. left. apply elem_of_app. left. by left.
  - destruct (IH Hs) as (? & ? & ?).
    split_and!; [apply elem_of_app; by right..|].
    intros ?. apply elem_of_app. right. auto.
Qed.

Lemma add_words_extends_from lower st ws :
  ∃ ext, (add_words lower st ws).2 = st.2 ++ ext
         ∧ ∀ x, x ∈ ext → ∃ t, t ∈ ws ∧ x = lower t.
Proof.
  revert st. induction ws as [|t ws IH]; intros [seen all_cands].
  - exists []. split; [by rewrite app_nil_r|]. by intros x ?%elem_of_nil.
  - rewrite add_words_cons.
    destruct (bool_decide (lower t ∉ seen)).
    + destruct (IH ({[lower t]} ∪ seen, all_cands ++ [lower t]))
        as (ext & -> & Hext).
      exists (lower t :: ext). simpl. split; [by rewrite <- app_assoc|].
      intros x [->|Hx]%elem_of_cons.
      * exists t. split; [by left|done].
      * destruct (Hext x Hx) as (t' & ? & ?). exists t'. split; [by right|done].
    + destruct (IH (seen, all_cands)) as (ext & -> & Hext).
      exists ext. split; [done|]. intros x Hx.
      destruct (Hext x Hx) as (t' & ? & ?). exists t'. split; [by right|done].
Qed.

Lemma add_words_keeps lower st ws t :
  (∀ x, x ∈ st.1 → x ∈ st.2) → t ∈ ws →
  lower t ∈ (add_words lower st ws).2.
Proof.
  revert st. induction ws as [|t' ws IH]; intros [seen all_cands] Hst Ht.
  { by apply elem_of_nil in Ht. }
  rewrite add_words_cons. simpl in Hst.
  apply elem_of_cons in Ht as [<-|Ht].
  - case_bool_decide as Hnew.
    + destruct (add_words_extends lower
                  ({[lower t]} ∪ seen, all_cands ++ [lower t]) ws)
        as (ext & ->). simpl.
      apply elem_of_app. left. apply elem_of_app. right. by left.
    + destruct (add_words_extends lower (seen, all_cands) ws) as (ext & ->).
      simpl. apply elem_of_app. left. by apply Hst.
  - apply IH; [|done]. case_bool_decide; [|done]. simpl.
    intros x [->%elem_of_singleton|Hx]%elem_of_union.
    + apply elem_of_app. right. by left.
    + apply elem_of_app. left. by apply Hst.
Qed.

Lemma candidates_for_split lower icon exe_name last_word :
  ∃ ext,
    candidates_for lower icon exe_name last_word
    = (dedup_into (∅, [])
         (base_candidates icon exe_name last_word
          ++ derived_variants lower
               (base_candidates icon exe_name last_word))).2 ++ ext
    ∧ ∀ x, x ∈ ext → ∃ t, t ∈ split (default [] last_word) ∧ x = lower t.
Proof.
  unfold candidates_for. cbv zeta. destruct (truthy last_word).
  - apply add_words_extends_from.
  - exists []. split; [by rewrite app_nil_r|]. by intros x ?%elem_of_nil.
Qed.

(** X12: every candidate is a base entry (descriptor icon, exec
    hint or normalized hint), or the lowercase form of a base entry, that
    form without spaces, or what follows its last '.', or the lowercase
    form of a word of the normalized hint. *)
Theorem build_icon_candidates_sound
    lower desktop_file exe_name last_word w icon cands c :
  result_of (read_icon_from_desktop desktop_file) w = Ok icon →
  result_of (build_icon_candidates lower desktop_file exe_name last_word) w
  = Ok cands →
  c ∈ cands →
  c ∈ base_candidates icon exe_name last_word
  ∨ (∃ s, s ∈ base_candidates icon exe_name last_word
          ∧ (c = lower s ∨ c = remove_spaces (lower s)
             ∨ (has_char 46 (lower s) = true
                ∧ c = after_last 46 (lower s))))
  ∨ (∃ t, t ∈ split (default [] last_word) ∧ c = lower t).
Proof.
  intros Hicon Hc Hin.
  rewrite (run_build_icon_candidates _ _ _ _ _ _ Hicon) in Hc.
  injection Hc as <-.
  destruct (candidates_for_split lower icon exe_name last_word)
    as (ext & E & Hext).
  rewrite E in Hin. apply elem_of_app in Hin as [Hin|Hin]; [|auto].
  destruct (dedup_into_extends (∅, [])
              (base_candidates icon exe_name last_word
               ++ derived_variants lower
                    (base_candidates icon exe_name last_word)))
    as (ext' & E' & Hext').
  rewrite E' in Hin. simpl in Hin.
  apply Hext', elem_of_app in Hin as [Hin|Hin]; [by left|].
  right. left. by apply derived_variants_from.
Qed.

Lemma build_icon_candidates_sound_witness :
  py "app" ∈ base_candidates (Some (py "org.example.App")) None None
  ∨ (∃ s, s ∈ base_candidates (Some (py "org.example.App")) None None
          ∧ (py "app" = ascii_lower s
             ∨ py "app" = remove_spaces (ascii_lower s)
             ∨ (has_char 46 (ascii_lower s) = true
                ∧ py "app" = after_last 46 (ascii_lower s))))
  ∨ (∃ t, t ∈ split (default [] None) ∧ py "app" = ascii_lower t).
Proof.
  apply (build_icon_candidates_sound ascii_lower
           (Some (py "/usr/share/applications/org.example.App.desktop"))
           None None (boot os1) (Some (py "org.example.App"))
           [py "org.example.App"; py "app"; py "org.example.app"]).
  - by vm_compute.
  - by vm_compute.
  - apply list_elem_of_further, list_elem_of_here.
Defined.

(** X13: every base entry is a candidate, and so are its
    lowercase form, that form without spaces and, if the lowercase form
    has a '.', what follows the last '.', each unless it is the empty
    string; the lowercase form of every word of the normalized hint is a
    candidate too. *)
Theorem build_icon_candidates_complete
    lower desktop_file exe_name last_word w icon cands :
  result_of (read_icon_from_desktop desktop_file) w = Ok icon →
  result_of (build_icon_candidates lower desktop_file exe_name last_word) w
  = Ok cands →
  (∀ s, s ∈ base_candidates icon exe_name last_word →
        s ∈ cands
        ∧ (lower s ≠ [] → lower s ∈ cands)
        ∧ (remove_spaces (lower s) ≠ [] → remove_spaces (lower s) ∈ cands)
        ∧ (has_char 46 (lower s) = true → after_last 46 (lower s) ≠ [] →
           after_last 46 (lower s) ∈ cands))
  ∧ (∀ t, t ∈ split (default [] last_word) → lower t ∈ cands).
Proof.
  intros Hicon Hc.
  rewrite (run_build_icon_candidates _ _ _ _ _ _ Hicon) in Hc.
  injection Hc as <-.
  set (base := base_candidates icon exe_name last_word).
  assert (∀ x, x ∈ base ++ derived_variants lower base → x ≠ [] →
               x ∈ candidates_for lower icon exe_name last_word) as Hkeep.
  { intros x Hx Hne.
    destruct (candidates_for_split lower icon exe_name last_word)
      as (ext & -> & _).
    apply elem_of_app. left.
    by apply dedup_into_keeps; [apply cand_inv_empty|..]. }
  split.
  - intros s Hs.
    pose proof (base_candidates_not_empty _ _ _ _ Hs) as Hne.
    destruct (derived_variants_has lower base s Hs Hne) as (H1 & H2 & H3).
    split_and!.
    + apply Hkeep; [|done]. apply elem_of_app. by left.
    + apply Hkeep. apply elem_of_app. by right.
    + apply Hkeep. apply elem_of_app. by right.
    + intros Hdot. apply Hkeep. apply elem_of_app. right. auto.
  - intros t Ht. unfold candidates_for. cbv zeta.
    destruct (truthy last_word) eqn:Hl.
    + apply add_words_keeps; [|done].
      pose proof (dedup_into_inv (∅, [])
                    (base ++ derived_variants lower base) cand_inv_empty)
        as (_ & _ & Hseen).
      intros x. apply Hseen.
    + destruct last_word as [[|]|]; try done; by apply elem_of_nil in Ht.
Qed.

Lemma build_icon_candidates_complete_witness :
  let cands := [py "org.example.App"; py "app"; py "org.example.app"] in
  (∀ s, s ∈ base_candidates (Some (py "org.example.App")) None None →
        s ∈ cands
        ∧ (ascii_lower s ≠ [] → ascii_lower s ∈ cands)
        ∧ (remove_spaces (ascii_lower s) ≠ [] →
           remove_spaces (ascii_lower s) ∈ cands)
        ∧ (has_char 46 (ascii_lower s) = true →
           after_last 46 (ascii_lower s) ≠ [] →
           after_last 46 (ascii_lower s) ∈ cands))
  ∧ (∀ t, t ∈ split (default [] None) → ascii_lower t ∈ cands).
Proof.
  apply (build_icon_candidates_complete ascii_lower
           (Some (py "/usr/share/applications/org.example.App.desktop"))
           None None (boot os1) (Some (py "org.example.App"))).
  - by vm_compute.
  - by vm_compute.
Defined.

(** X14: the first candidate is the first base entry: the
    descriptor icon if the descriptor has a non-empty one, else the exec
    hint if it is not empty, else the normalized hint; there is no
    candidate exactly when all three are absent or empty. *)
Theorem build_icon_candidates_head
    lower desktop_file exe_name last_word w icon cands :
  result_of (read_icon_from_desktop desktop_file) w = Ok icon →
  result_of (build_icon_candidates lower desktop_file exe_name last_word) w
  = Ok cands →
  head cands = head (base_candidates icon exe_name last_word)
  ∧ (cands = [] ↔
     truthy icon = false ∧ truthy exe_name = false
     ∧ truthy last_word = false).
Proof.
  intros Hicon Hc.
  rewrite (run_build_icon_candidates _ _ _ _ _ _ Hicon) in Hc.
  injection Hc as <-.
  assert (head (candidates_for lower icon exe_name last_word)
          = head (base_candidates icon exe_name last_word)) as Hhead.
  { destruct (candidates_for_split lower icon exe_name last_word)
      as (ext & -> & Hext).
    destruct (base_candidates icon exe_name last_word) as [|c base] eqn:Hb.
    - simpl. destruct ext as [|x ext]; [done|].
      destruct (Hext x) as (t & Ht & _); [by left|].
      assert (truthy last_word = false) as Hl.
      { unfold base_candidates in Hb. cbv zeta in Hb.
        destruct (truthy last_word); [|done].
        by destruct (truthy icon), (truthy exe_name). }
      destruct last_word as [[|]|]; try done; by apply elem_of_nil in Ht.
    - assert (c ≠ []) as Hne.
      { apply (base_candidates_not_empty icon exe_name last_word).
        rewrite Hb. by left. }
      rewrite <- app_comm_cons, dedup_into_cons.
      replace (truthy (Some c)) with true by by destruct c.
      rewrite bool_decide_true by apply not_elem_of_empty.
      simpl andb. cbv iota.
      destruct (dedup_into_extends ({[c]} ∪ ∅, [] ++ [c])
                  (base ++ derived_variants lower (c :: base)))
        as (ext' & -> & _).
      done. }
  split; [done|].
  unfold base_candidates in Hhead. cbv zeta in Hhead. split.
  - intros E. rewrite E in Hhead.
    destruct (truthy icon), (truthy exe_name), (truthy last_word); done.
  - intros (Hi & He & Hl). rewrite Hi, He, Hl in Hhead.
    by destruct (candidates_for lower icon exe_name last_word).
Qed.

Lemma build_icon_candidates_head_witness :
  let cands := [py "org.example.App"; py "app"; py "org.example.app"] in
  head cands = head (base_candidates (Some (py "org.example.App")) None None)
  ∧ (cands = [] ↔
     truthy (Some (py "org.example.App")) = false
     ∧ truthy None = false ∧ truthy None = false).
Proof.
  apply (build_icon_candidates_head ascii_lower
           (Some (py "/usr/share/applications/org.example.App.desktop"))
           None None (boot os1) (Some (py "org.example.App"))).
  - by vm_compute.
  - by vm_compute.
Defined.

(** ** More on strings and the normaliser *)

Lemma lstrip_idem s : lstrip (lstrip s) = lstrip s.
Proof.
  destruct (lstrip_nil_or_word s) as [->|H]; [done|].
  by apply lstrip_starts_word.
Qed.

Lemma rstrip_idem s : rstrip (rstrip s) = rstrip s.
Proof. unfold rstrip. by rewrite reverse_involutive, lstrip_idem. Qed.

Lemma rstrip_nil : rstrip [] = [].
Proof. done. Qed.

Lemma rstrip_lstrip_fixed a : rstrip a = a → rstrip (lstrip a) = lstrip a.
Proof.
  intros Ha. destruct (lstrip_spec a) as (ws & E & _).
  destruct (lstrip a) as [|c r] eqn:El; [done|].
  assert (isspace c = false) as Hc.
  { destruct (lstrip_nil_or_word a) as [H|H]; rewrite El in H; [done|].
    by apply negb_true_iff in H. }
  rewrite E, rstrip_word_app in Ha by done.
  apply app_inv_head in Ha. injection Ha as Hr.
  pose proof (rstrip_word_app [] c r Hc) as H.
  change ([] ++ c :: r) with (c :: r) in H.
  change ([] ++ c :: rstrip r) with (c :: rstrip r) in H.
  by rewrite H, Hr.
Qed.

Lemma strip_fixed s c a :
  starts_word s = true → s = a ++ [c] → isspace c = false → strip s = s.
Proof.
  intros Hs E Hc. unfold strip.
  assert (rstrip s = s) as ->.
  { rewrite E. by rewrite (rstrip_word_app a c []), rstrip_nil. }
  by apply lstrip_starts_word.
Qed.

Lemma word_ends t :
  is_word t → ∃ a c, t = a ++ [c] ∧ isspace c = false.
Proof.
  intros [Hne Hns]. induction t as [|c t _] using rev_ind; [done|].
  exists t, c. split; [done|].
  apply Forall_app in Hns as [_ Hc]. by inversion Hc.
Qed.

Lemma join_words_ends t ts :
  Forall is_word (t :: ts) →
  ∃ a c, join (py " ") (t :: ts) = a ++ [c] ∧ isspace c = false.
Proof.
  revert t. induction ts as [|t' ts IH]; intros t Hw.
  - inversion Hw; subst. by apply word_ends.
  - inversion Hw as [|? ? _ Hw']; subst.
    destruct (IH t' Hw') as (a & c & E & Hc).
    exists (t ++ py " " ++ a), c. split; [|done].
    change (join (py " ") (t :: t' :: ts))
      with (t ++ py " " ++ join (py " ") (t' :: ts)).
    by rewrite E, <- !app_assoc.
Qed.

Lemma join_words_starts t ts :
  Forall is_word (t :: ts) → starts_word (join (py " ") (t :: ts)) = true.
Proof.
  intros Hw. inversion Hw as [|? ? [Hne Hns] _]; subst.
  destruct t as [|c t]; [done|]. inversion Hns; subst.
  destruct ts; simpl; by apply negb_true_iff.
Qed.

Lemma strip_idem s : strip (strip s) = strip s.
Proof.
  unfold strip.
  rewrite (rstrip_lstrip_fixed (rstrip s)) by apply rstrip_idem.
  apply lstrip_idem.
Qed.

Lemma last_token_word s :
  last_token s = [] ∨ (last_token s ∈ split s ∧ is_word (last_token s)).
Proof.
  unfold last_token. destruct (last (split s)) as [t|] eqn:E; [|by left].
  right. apply last_Some_elem_of in E. split; [done|].
  pose proof (split_words s) as Hw. rewrite Forall_forall in Hw. by apply Hw.
Qed.

Lemma split_word t : is_word t → split t = [t].
Proof.
  intros Ht. rewrite <- (app_nil_r t) at 1.
  by rewrite split_word_app; [|done|left].
Qed.

Lemma first_dash_Some title sep :
  first_dash title = Some sep →
  has_char sep title = true ∧ isspace sep = false.
Proof.
  unfold first_dash, DASHES. simpl.
  destruct (has_char 8212 title) eqn:H1; [by intros [= <-]|].
  destruct (has_char 8211 title) eqn:H2; [by intros [= <-]|].
  destruct (has_char 45 title) eqn:H3; [by intros [= <-]|done].
Qed.

(** X15: when the title contains a separator, the hint returned by
    [extract_last_word_after_dash] is one token or the empty string: it
    holds no whitespace and no occurrence of the separator that was
    used. *)
Theorem extract_last_word_after_dash_token title sep w r :
  first_dash title = Some sep →
  result_of (extract_last_word_after_dash (Some title)) w = Ok r →
  Forall (λ c, isspace c = false) r ∧ has_char sep r = false.
Proof.
  intros Hsep. rewrite run_extract_last_word_after_dash, Hsep.
  destruct (encodable (w_os w) title); [|done]. intros [= <-].
  destruct (last_token_word (after_last sep title)) as [->|[Hin [_ Hw]]];
    [done|].
  split; [done|].
  destruct (has_char sep (last_token (after_last sep title))) eqn:E; [|done].
  apply has_char_elem_of in E.
  pose proof (split_chars _ _ _ Hin E) as Hc.
  apply has_char_elem_of in Hc. by rewrite after_last_no_char in Hc.
Qed.

Lemma extract_last_word_after_dash_token_witness :
  Forall (λ c, isspace c = false) (py "Editor")
  ∧ has_char 45 (py "Editor") = false.
Proof.
  apply (extract_last_word_after_dash_token
           (py "report.txt - Text Editor") 45 (boot os1) (py "Editor"));
    by vm_compute.
Defined.

Lemma run_extract_last_word_after_dash_any win_name w :
  result_of (extract_last_word_after_dash win_name) w =
  if encodable (w_os w) (default [] win_name)
  then Ok (hint_of (default [] win_name))
  else Raise UnicodeEncodeError.
Proof.
  transitivity
    (result_of (extract_last_word_after_dash (Some (default [] win_name))) w).
  - by destruct win_name as [[|c title]|].
  - apply run_extract_last_word_after_dash.
Qed.

Lemma hint_of_normal_form title :
  join (py " ") (split (hint_of title)) = hint_of title.
Proof.
  unfold hint_of. destruct (first_dash title) as [sep|].
  - destruct (last_token_word (after_last sep title)) as [->|[_ Hw]];
      [done|].
    by rewrite split_word.
  - by rewrite split_join_words by apply split_words.
Qed.

Lemma encodable_hint_of os title :
  encodable os title = true → encodable os (hint_of title) = true.
Proof.
  intros He. unfold hint_of. destruct (first_dash title) as [sep|].
  - destruct (last_token_word (after_last sep title)) as [->|[Hin _]];
      [done|].
    eapply encodable_incl; [|by apply (encodable_after_last _ sep), He].
    intros c. by apply split_chars.
  - by apply encodable_normalized.
Qed.

(** X16: whatever the title (absent, blank, with or without a
    separator), a hint returned by [extract_last_word_after_dash] is in
    normal form: collapsing its whitespace again changes nothing, and it
    neither starts nor ends with whitespace. A hint is returned for every
    title that the standard output can encode. *)
Theorem extract_last_word_after_dash_normal win_name w :
  let result := result_of (extract_last_word_after_dash win_name) w in
  (∀ r, result = Ok r → join (py " ") (split r) = r ∧ strip r = r)
  ∧ (encodable (w_os w) (default [] win_name) = true →
     ∃ r, result = Ok r ∧ join (py " ") (split r) = r ∧ strip r = r).
Proof.
  intros result. unfold result.
  rewrite run_extract_last_word_after_dash_any.
  set (hint := hint_of (default [] win_name)).
  assert (join (py " ") (split hint) = hint ∧ strip hint = hint) as Hn.
  { pose proof (hint_of_normal_form (default [] win_name)) as Hn.
    fold hint in Hn. split; [done|]. rewrite <- Hn.
    destruct (split hint) as [|t ts] eqn:E; [done|].
    pose proof (split_words hint) as Hw. rewrite E in Hw.
    destruct (join_words_ends t ts Hw) as (a & c & Ej & Hc).
    by apply (strip_fixed _ c a); [apply join_words_starts|..]. }
  destruct (encodable (w_os w) (default [] win_name)).
  - split; [by intros r [= <-]|]. intros _. by exists hint.
  - split; [done|]. by intros [=].
Qed.

(** ** More on the reader and the theme resolver *)

(** X17: an icon name returned by [read_icon_from_desktop] does
    not end in whitespace (nor in a line terminator): stripping its right
    end changes nothing. *)
Theorem read_icon_from_desktop_trimmed desktop_file w icon_name :
  result_of (read_icon_from_desktop desktop_file) w = Ok (Some icon_name) →
  rstrip icon_name = icon_name.
Proof.
  rewrite run_read_icon_from_desktop. intros H.
  destruct desktop_file as [[|c path]|]; try done.
  apply declared_icon_Some in H as (lines & err & line & _ & _ & ->).
  apply rstrip_idem.
Qed.

Lemma read_icon_from_desktop_trimmed_witness :
  rstrip (py "org.example.App") = py "org.example.App".
Proof.
  apply (read_icon_from_desktop_trimmed
           (Some (py "/usr/share/applications/org.example.App.desktop"))
           (boot os1)).
  by vm_compute.
Defined.

(** X18: [get_current_icon_theme] never raises
    [CalledProcessError], and a theme name it returns has no whitespace
    at either end (it may be the empty string, when the query prints
    nothing but whitespace). *)
Theorem get_current_icon_theme_result w :
  (∀ rc, result_of get_current_icon_theme w ≠ Raise (CalledProcessError rc))
  ∧ (∀ theme, result_of get_current_icon_theme w = Ok theme →
              strip theme = theme).
Proof.
  rewrite get_current_icon_theme_outcomes.
  destruct (os_run (w_os w) xfconf_query) as [e|rc out].
  - split.
    + intros rc. by destruct e.
    + intros theme. by destruct e; intros [= <-].
  - destruct rc as [|rc|rc].
    + destruct (utf8_decode out) as [text|]; split; try done.
      intros theme [= <-]. apply strip_idem.
    + split; [done|]. by intros theme [= <-].
    + split; [done|]. by intros theme [= <-].
Qed.

Lemma get_current_icon_theme_result_witness :
  strip [65; 100; 119; 8212] = [65; 100; 119; 8212].
Proof.
  apply (proj2 (get_current_icon_theme_result (boot os1))).
  by vm_compute.
Defined.



(** ** More on the locator and on [resolve] *)

Lemma run_for_return_result {X R} (f : X → PyResult (option R)) body
    (xs : list X) w :
  (∀ x, x ∈ xs → body x w = (f x, w)) →
  for_return xs body w = (first_result f xs, w).
Proof.
  induction xs as [|x xs IH]; intros Hb; [done|].
  simpl. unfold mbind, M_bind. rewrite (Hb x) by by left.
  destruct (f x) as [[v|]|e]; [done| |done].
  apply IH. intros y Hy. apply Hb. by right.
Qed.

Lemma run_find_desktop_file_result lower name_guess w :
  find_desktop_file lower name_guess w
  = (first_result
       (scan_dir lower (w_os w) (remove_spaces (lower name_guess)))
       (system_first (w_os w)), w).
Proof.
  unfold find_desktop_file. cbv zeta.
  erewrite run_bind by reflexivity.
  apply run_for_return_result. intros d _.
  erewrite run_bind by reflexivity.
  unfold scan_dir.
  destruct (os_path_exists (w_os w) d) eqn:Hex; [|done].
  cbv beta. change (negb true) with false. cbv iota.
  unfold listdir, lift, ask. unfold mbind at 1 2, M_bind.
  destruct (os_listdir (w_os w) d) as [files|e]; [|done].
  set (key := remove_spaces (lower name_guess)).
  rewrite <- (first_some_find (descriptor_matches lower key)
                (λ file, path_join d [file])
                (λ file, if negb (endswith file (py ".desktop")) then None
                         else if contains key (remove_spaces (lower file))
                              then Some (path_join d [file]) else None)).
  - apply run_for_return_pure. intros file _.
    destruct (endswith file (py ".desktop")); simpl; [|done].
    by destruct (contains _ _).
  - intros file. unfold descriptor_matches.
    destruct (endswith file (py ".desktop")); simpl; [|done].
    by destruct (contains _ _).
Qed.

Lemma result_of_find_desktop_file lower name_guess w :
  result_of (find_desktop_file lower name_guess) w
  = first_result
      (scan_dir lower (w_os w) (remove_spaces (lower name_guess)))
      (system_first (w_os w)).
Proof. unfold result_of. by rewrite run_find_desktop_file_result. Qed.

Lemma startswith_inv s pre :
  startswith s pre = true → ∃ r, s = pre ++ r.
Proof.
  revert s. induction pre as [|p pre IH]; intros s H; [by exists s|].
  destruct s as [|c s]; [done|]. simpl in H.
  apply andb_true_iff in H as [->%N.eqb_eq H].
  destruct (IH s H) as [r ->]. by exists r.
Qed.

Lemma endswith_inv s suf : endswith s suf = true → ∃ a, s = a ++ suf.
Proof.
  unfold endswith. intros [r E]%startswith_inv. exists (reverse r).
  by rewrite <- (reverse_involutive s), E, reverse_app, reverse_involutive.
Qed.

Lemma endswith_trans s t suf :
  endswith s t = true → endswith t suf = true → endswith s suf = true.
Proof.
  intros [a ->]%endswith_inv [b ->]%endswith_inv.
  rewrite app_assoc. apply endswith_app.
Qed.

(** X20: a path returned by [find_desktop_file] is the join of
    an existing descriptor directory with a file of its listing that ends
    in '.desktop' and whose lower-cased name without spaces contains the
    lower-cased hint without spaces; the path itself ends in
    '.desktop'. *)
Theorem find_desktop_file_sound lower name_guess w p :
  result_of (find_desktop_file lower name_guess) w = Ok (Some p) →
  ∃ d files file,
    d ∈ system_first (w_os w) ∧ os_path_exists (w_os w) d = true
    ∧ os_listdir (w_os w) d = Ok files ∧ file ∈ files
    ∧ descriptor_matches lower (remove_spaces (lower name_guess)) file = true
    ∧ p = path_join d [file]
    ∧ endswith p (py ".desktop") = true.
Proof.
  rewrite result_of_find_desktop_file.
  intros (d & Hd & H)%first_result_Some. unfold scan_dir in H.
  destruct (os_path_exists (w_os w) d) eqn:Hex; [|done].
  destruct (os_listdir (w_os w) d) as [files|e] eqn:Hl; [|done].
  injection H as H. apply fmap_Some in H as (file & Hf & ->).
  apply find_some in Hf as [Hin Hm].
  exists d, files, file. split_and!; try done.
  - by apply list_elem_of_In.
  - apply (endswith_trans _ file); [apply path_join_one_suffix|].
    unfold descriptor_matches in Hm. by apply andb_true_iff in Hm as [? _].
Qed.

Lemma find_desktop_file_sound_witness :
  ∃ d files file,
    d ∈ system_first os1 ∧ os_path_exists os1 d = true
    ∧ os_listdir os1 d = Ok files ∧ file ∈ files
    ∧ descriptor_matches ascii_lower
        (remove_spaces (ascii_lower (py "Fire Fox"))) file = true
    ∧ py "/usr/share/applications/firefox.desktop" = path_join d [file]
    ∧ endswith (py "/usr/share/applications/firefox.desktop")
        (py ".desktop") = true.
Proof.
  apply (find_desktop_file_sound ascii_lower (py "Fire Fox") (boot os1)).
  by vm_compute.
Defined.

(** X21: [find_desktop_file] does not catch the error of
    [os.listdir]. When a descriptor directory exists but cannot be listed
    (it is a file, or unreadable) and no directory before it gave a
    match, the error reaches the caller, whatever the later directories
    hold. *)
Theorem find_desktop_file_listing_error
    lower name_guess w before d after e :
  system_first (w_os w) = before ++ d :: after →
  (∀ d', d' ∈ before →
         os_path_exists (w_os w) d' = false
         ∨ ∃ files, os_listdir (w_os w) d' = Ok files
                    ∧ ∀ file, file ∈ files →
                        descriptor_matches lower
                          (remove_spaces (lower name_guess)) file = false) →
  os_path_exists (w_os w) d = true →
  os_listdir (w_os w) d = Raise e →
  result_of (find_desktop_file lower name_guess) w = Raise e.
Proof.
  intros Hdirs Hbefore Hex Hl.
  rewrite result_of_find_desktop_file.
  rewrite Hdirs, first_result_app_None.
  - simpl. unfold scan_dir at 1. by rewrite Hex, Hl.
  - intros d' Hd'. unfold scan_dir.
    destruct (Hbefore d' Hd') as [->|(files & -> & Hno)]; [done|].
    destruct (os_path_exists (w_os w) d'); [|done].
    by rewrite (proj2 (find_None_not _ files) Hno).
Qed.

Lemma find_desktop_file_listing_error_witness :
  result_of (find_desktop_file ascii_lower (py "zim")) (boot os_unlistable)
  = Raise NotADirectoryError.
Proof.
  apply (find_desktop_file_listing_error ascii_lower (py "zim")
           (boot os_unlistable) [] (py "/usr/share/applications")
           [py "/home/u/.local/share/applications";
            py "/var/lib/flatpak/exports/share/applications";
            py "/var/lib/snapd/desktop/applications"]).
  - reflexivity.
  - intros d' Hd'. by apply elem_of_nil in Hd'.
  - reflexivity.
  - reflexivity.
Defined.

Lemma result_of_resolve lower exe win_name search_paths w :
  result_of (resolve lower exe win_name search_paths) w =
  if encodable (w_os w) win_name then
    match first_result
            (scan_dir lower (w_os w)
               (remove_spaces (lower (hint_of win_name))))
            (system_first (w_os w)) with
    | Ok desktop_file =>
        result_of (get_icon_path lower desktop_file (Some exe)
                     (Some (hint_of win_name)) search_paths) w
    | Raise e => Raise e
    end
  else Raise UnicodeEncodeError.
Proof.
  unfold resolve.
  rewrite result_of_bind, run_extract_last_word_after_dash.
  fold (hint_of win_name).
  destruct (encodable (w_os w) win_name); [|done].
  destruct (reads_only_extract_last_word_after_dash (Some win_name) w)
    as [Hos _].
  set (w1 := world_after (extract_last_word_after_dash (Some win_name)) w)
    in *.
  rewrite result_of_bind, result_of_find_desktop_file, Hos.
  destruct (first_result _ _) as [desktop_file|e]; [|done].
  unfold world_after. rewrite run_find_desktop_file_result. simpl snd.
  destruct (reads_only_get_icon_path lower desktop_file (Some exe)
              (Some (hint_of win_name)) search_paths w) as [_ Hres].
  by apply Hres.
Qed.






Lemma first_result_listable lower os key dirs :
  listable os dirs →
  first_result (scan_dir lower os key) dirs
  = Ok (first_some (λ d,
          if os_path_exists os d
          then (λ file, path_join d [file])
                 <$> find (descriptor_matches lower key) (listing os d)
          else None) dirs).
Proof.
  induction dirs as [|d dirs IH]; intros Hl; [done|].
  assert (listable os dirs) as Hl'
    by (intros d' ? ?; apply Hl; [by right|done]).
  simpl. unfold scan_dir at 1, listing at 1.
  destruct (os_path_exists os d) eqn:Hex; [|by apply IH].
  destruct (Hl d) as [files ->]; [by left|done|].
  destruct (find _ files); simpl; [done|by apply IH].
Qed.

(** X23: when the normalized hint of the title is empty (a blank
    title, or a title that ends in the separator), the descriptor
    [resolve] works with is the first file ending in '.desktop' of the
    first existing descriptor directory that has one, whatever
    application it describes; the candidates are then built from the icon
    of that descriptor and the exec hint. (A title that the standard
    output cannot encode makes the first debug line fail instead.) *)
Theorem resolve_blank_hint lower exe win_name search_paths w :
  hint_of win_name = [] → lower [] = [] →
  listable (w_os w) (system_first (w_os w)) →
  result_of (resolve lower exe win_name search_paths) w
  = if encodable (w_os w) win_name
    then result_of (get_icon_path lower
                      (in_first_with_descriptor (w_os w)
                         (system_first (w_os w)))
                      (Some exe) (Some []) search_paths) w
    else Raise UnicodeEncodeError.
Proof.
  intros Hhint Hlower Hl.
  rewrite result_of_resolve, Hhint.
  rewrite (first_result_listable _ _ _ _ Hl).
  fold (scan_dirs lower (w_os w) (system_first (w_os w)) []).
  rewrite scan_dirs_empty_key by by rewrite Hlower.
  done.
Qed.

Lemma resolve_blank_hint_witness :
  result_of (resolve ascii_lower (py "mousepad") (py "Untitled 1 -") [])
    (boot os_sparse)
  = if encodable (w_os (boot os_sparse)) (py "Untitled 1 -")
    then result_of (get_icon_path ascii_lower
                      (in_first_with_descriptor (w_os (boot os_sparse))
                         (system_first (w_os (boot os_sparse))))
                      (Some (py "mousepad")) (Some []) []) (boot os_sparse)
    else Raise UnicodeEncodeError.
Proof.
  apply (resolve_blank_hint ascii_lower (py "mousepad") (py "Untitled 1 -")
           [] (boot os_sparse)).
  - by vm_compute.
  - reflexivity.
  - exact listable_os_sparse.
Defined.

(** X24: normalising a hint again gives the same hint, as long as
    the hint holds none of the three separators (which is always so when
    the title had no em dash and no en dash). *)
Theorem extract_last_word_after_dash_idempotent win_name w r :
  result_of (extract_last_word_after_dash win_name) w = Ok r →
  first_dash r = None →
  result_of (extract_last_word_after_dash (Some r)) w = Ok r.
Proof.
  rewrite run_extract_last_word_after_dash_any.
  destruct (encodable (w_os w) (default [] win_name)) eqn:He; [|done].
  intros [= <-] Hnone.
  rewrite run_extract_last_word_after_dash, Hnone, hint_of_normal_form.
  by rewrite encodable_hint_of.
Qed.

Lemma extract_last_word_after_dash_idempotent_witness :
  result_of (extract_last_word_after_dash (Some (py "Editor"))) (boot os1)
  = Ok (py "Editor").
Proof.
  apply (extract_last_word_after_dash_idempotent
           (Some (py "report.txt - Text Editor")) (boot os1));
    by vm_compute.
Defined.

Lemma contains_app_l needle a hay :
  contains needle hay = true → contains needle (a ++ hay) = true.
Proof.
  intros H. induction a as [|c a IH]; [done|].
  simpl. rewrite IH. apply orb_true_r.
Qed.

Lemma remove_spaces_app a b :
  remove_spaces (a ++ b) = remove_spaces a ++ remove_spaces b.
Proof. apply filter_app. Qed.

(** X25: the match key is looked for in the whole file name, the
    '.desktop' suffix included. A hint whose key occurs in ".desktop" (the
    title "Desktop", say) therefore matches every descriptor:
    [find_desktop_file] returns the first file ending in '.desktop' of the
    first existing descriptor directory that has one. The lower-casing
    enters through the fact that it keeps a '.desktop' suffix. *)
Theorem find_desktop_file_suffix_key lower name_guess w :
  (∀ file, endswith file (py ".desktop") = true →
           endswith (lower file) (py ".desktop") = true) →
  contains (remove_spaces (lower name_guess)) (py ".desktop") = true →
  listable (w_os w) (system_first (w_os w)) →
  result_of (find_desktop_file lower name_guess) w
  = Ok (in_first_with_descriptor (w_os w) (system_first (w_os w))).
Proof.
  intros Hlower Hkey Hl.
  rewrite result_of_find_desktop_file, (first_result_listable _ _ _ _ Hl).
  f_equal. unfold in_first_with_descriptor, first_descriptor.
  apply first_some_ext. intros d.
  destruct (os_path_exists (w_os w) d); [|done]. f_equal.
  apply find_ext. intros file. unfold descriptor_matches.
  destruct (endswith file (py ".desktop")) eqn:Hsuf; [|done].
  destruct (endswith_inv _ _ (Hlower file Hsuf)) as [a ->].
  rewrite remove_spaces_app.
  change (remove_spaces (py ".desktop")) with (py ".desktop").
  by rewrite contains_app_l.
Qed.

Lemma ascii_lower_keeps_desktop file :
  endswith file (py ".desktop") = true →
  endswith (ascii_lower file) (py ".desktop") = true.
Proof.
  intros [a ->]%endswith_inv. unfold ascii_lower. rewrite fmap_app.
  apply endswith_app.
Qed.

Lemma find_desktop_file_suffix_key_witness :
  result_of (find_desktop_file ascii_lower (py "Desktop")) (boot os_sparse)
  = Ok (in_first_with_descriptor os_sparse (system_first os_sparse)).
Proof.
  apply (find_desktop_file_suffix_key ascii_lower (py "Desktop")
           (boot os_sparse)).
  - exact ascii_lower_keeps_desktop.
  - reflexivity.
  - exact listable_os_sparse.
Defined.

(** ** The titles of the window list *)



